(** * SoundCloud Search API: the [/search] handler of [server.js]

    A shallow embedding of the request handler registered with
    [app.get('/search', ...)] and of the fan-out over per-track detail
    lookups it performs, followed by the properties of the handler.

    Conventions.
    - A JavaScript string is the list of its UTF-16 code units.
    - A JavaScript number is an IEEE 754 binary64 value, and [x / y] is
      the division of the standard, rounding to nearest, ties to even
      ([SpecFloat]).  The limit is an integer between 1 and 50 once line
      84 is passed and is kept as that integer.
    - The scraping client is an oracle: what [client.search] and
      [client.getSongInfo] answer is an input of the handler.  A call
      that resolves hands over an object (the search an array of items,
      an item possibly [null]); a call that rejects hands over anything,
      [null] and [undefined] included; a duration, where present, is a
      number.
    - The order in which the pending lookups settle is an input too.
    - Of the writes to the console only their failures matter: a
      template literal converts its holes to strings, and the conversion
      of an object whose own [toString] is not callable throws.
    - What [console.log], [console.warn] and [console.error] write goes
      to the server log only and is left out, and [res.json] sends what
      it is given. *)

From Stdlib Require Import ZArith NArith List String Ascii Bool Lia.
From Stdlib Require Import DecimalString SpecFloat.
From stdpp Require Import base option list.

Local Open Scope Z_scope.

(** ** JavaScript strings *)

Definition jsstring := list N.

(** A string literal of the source, as code units. *)
Definition lit (s : string) : jsstring :=
  List.map N_of_ascii (list_ascii_of_string s).

Definition jsstring_eqb (a b : jsstring) : bool :=
  bool_decide (a = b).

(** WhiteSpace and LineTerminator code points of ECMAScript, the ones
    [String.prototype.trim] and [parseInt] strip. *)
Definition isWhiteSpace (c : N) : bool :=
  ( (9 <=? c) && (c <=? 13)          (* TAB LF VT FF CR *)
  || (c =? 32)                        (* SPACE *)
  || (c =? 160)                       (* NO-BREAK SPACE *)
  || (c =? 5760)                      (* OGHAM SPACE MARK *)
  || (8192 <=? c) && (c <=? 8202)     (* EN QUAD .. HAIR SPACE *)
  || (c =? 8232) || (c =? 8233)       (* LINE / PARAGRAPH SEPARATOR *)
  || (c =? 8239)                      (* NARROW NO-BREAK SPACE *)
  || (c =? 8287)                      (* MEDIUM MATHEMATICAL SPACE *)
  || (c =? 12288)                     (* IDEOGRAPHIC SPACE *)
  || (c =? 65279) )%N.                (* ZERO WIDTH NO-BREAK SPACE *)

Fixpoint trimStart (s : jsstring) : jsstring :=
  match s with
  | c :: r => if isWhiteSpace c then trimStart r else s
  | [] => []
  end.

Definition trimEnd (s : jsstring) : jsstring :=
  rev (trimStart (rev s)).

(** [s.trim()] *)
Definition trim (s : jsstring) : jsstring :=
  trimEnd (trimStart s).

(** ** [parseInt(string, 10)] *)

Definition isDigit (c : N) : bool := ((48 <=? c) && (c <=? 57))%N.

(** The longest prefix of radix-10 digits. *)
Fixpoint leadingDigits (s : jsstring) : jsstring :=
  match s with
  | c :: r => if isDigit c then c :: leadingDigits r else []
  | [] => []
  end.

Definition digitValue (c : N) : Z := Z.of_N c - 48.

(** The mathematical value of a digit string, most significant first. *)
Definition decimalValue (ds : jsstring) : Z :=
  fold_left (fun acc c => 10 * acc + digitValue c) ds 0.

(** The sign and the rest, after an optional [+] or [-]. *)
Definition splitSign (s : jsstring) : Z * jsstring :=
  match s with
  | c :: r =>
      if (c =? 45)%N then (-1, r)        (* [-] *)
      else if (c =? 43)%N then (1, r)    (* [+] *)
      else (1, s)
  | [] => (1, [])
  end.

(** [parseInt(s, 10)] on a string: [None] is [NaN].  With radix 10 no
    [0x] prefix is stripped.  The result [-0] is read as [0], and the
    result is the exact integer: rounding it to a double changes none of
    the comparisons with 0 and 50 made on it, and nothing between them. *)
Definition parseInt10 (s : jsstring) : option Z :=
  let '(sign, body) := splitSign (trimStart s) in
  match leadingDigits body with
  | [] => None
  | ds => Some (sign * decimalValue ds)
  end.

(** ** Query-string values

    What [req.query.<name>] holds when the parameter is present: a
    string, an array ([limit=1&limit=2]) or an object ([limit[a]=1]). *)

#[warnings="-register-all"]
Inductive qval : Type :=
  | QStr (s : jsstring)
  | QArr (items : list qval)
  | QObj (fields : list (jsstring * qval)).

(** [ToString] of a query value, as [parseInt] applies it to its first
    argument, when the conversion returns: an array joins its items with
    commas, an object prints as ["[object Object]"] through
    [Object.prototype.toString].  [qToStringThrows] below tells when the
    conversion does not return. *)
Fixpoint qToString (v : qval) : jsstring :=
  match v with
  | QStr s => s
  | QArr items =>
      (fix join (l : list qval) : jsstring :=
         match l with
         | [] => []
         | x :: r =>
             match r with
             | [] => qToString x
             | _ :: _ => qToString x ++ 44%N :: join r
             end
         end) items
  | QObj _ => lit "[object Object]"
  end.

(** [ToString] throws a [TypeError] on an object that has a property
    [toString] of its own: the query parser stores strings, arrays and
    objects only, none of them callable, and [valueOf], own or inherited,
    yields no primitive either.  The parser keeps such a key
    ([limit[toString]=5]), as it is run with [allowPrototypes].  An array
    converts its items one by one. *)
Fixpoint qToStringThrows (v : qval) : bool :=
  match v with
  | QStr _ => false
  | QArr items =>
      (fix any (l : list qval) : bool :=
         match l with
         | [] => false
         | x :: r => qToStringThrows x || any r
         end) items
  | QObj fields =>
      existsb (fun kv => jsstring_eqb (fst kv) (lit "toString")) fields
  end.

(** [ToString] of a possibly absent parameter. *)
Definition paramToString (p : option qval) : jsstring :=
  match p with
  | None => lit "undefined"
  | Some v => qToString v
  end.

(** ** Configuration *)

Definition DEFAULT_SEARCH_LIMIT : Z := 10.
Definition MAX_SEARCH_LIMIT : Z := 50.

(** Whether [parseInt(rawLimit, 10)] of line 78 throws. *)
Definition limitThrows (rawLimit : option qval) : bool :=
  match rawLimit with
  | None => false
  | Some v => qToStringThrows v
  end.

(** Lines 78-84: the limit the handler goes on with, once line 78 has
    returned. *)
Definition normalizeLimit (rawLimit : option qval) : Z :=
  match parseInt10 (paramToString rawLimit) with
  | None => DEFAULT_SEARCH_LIMIT
  | Some limit =>
      if limit <=? 0 then DEFAULT_SEARCH_LIMIT
      else if limit >? MAX_SEARCH_LIMIT then MAX_SEARCH_LIMIT
      else limit
  end.

(** Lines 78-84 as they run: the limit the handler goes on with, and
    nothing when line 78 throws. *)
Definition processedLimit (rawLimit : option qval) : option Z :=
  if limitThrows rawLimit then None else Some (normalizeLimit rawLimit).

(** ** JavaScript values *)

(** A number: a binary64 value, with the parameters of the format. *)
Definition double : Type := spec_float.

Definition prec : Z := 53.
Definition emax : Z := 1024.

(** The double nearest to an integer, for the numerals of the source
    and of the examples. *)
Definition ofZ (z : Z) : double := binary_normalize prec emax z 0 false.

(** [x / y] *)
Definition js_div (x y : double) : double := SFdiv prec emax x y.

(** What [Math.floor] returns, an integer-valued number, [NaN] or an
    infinity, shown by its integer ([-0] as [0]). *)
Inductive jsnum : Type :=
  | NaN
  | PosInf
  | NegInf
  | Fin (z : Z).

(** [Math.floor(x)]: a finite [x] is [m * 2^e] with the sign [s]. *)
Definition Math_floor (x : double) : jsnum :=
  match x with
  | S754_nan => NaN
  | S754_infinity s => if s then NegInf else PosInf
  | S754_zero _ => Fin 0
  | S754_finite s m e =>
      let z := if s then Z.neg m else Z.pos m in
      Fin (if 0 <=? e then z * 2 ^ e else z / 2 ^ (- e))
  end.

#[warnings="-register-all"]
Inductive jsval : Type :=
  | JUndefined
  | JNull
  | JBool (b : bool)
  | JNum (n : double)
  | JStr (s : jsstring)
  | JObj (fields : list (jsstring * jsval)).

(** [ToBoolean] on numbers: [0] and [NaN] are falsy. *)
Definition numTruthy (n : double) : bool :=
  match n with
  | S754_nan | S754_zero _ => false
  | S754_infinity _ | S754_finite _ _ _ => true
  end.

(** [ToBoolean]: [undefined], [null], [false], [0], [NaN] and [''] are
    falsy, everything else (every object) is truthy. *)
Definition truthy (v : jsval) : bool :=
  match v with
  | JUndefined | JNull => false
  | JBool b => b
  | JNum n => numTruthy n
  | JStr s => match s with [] => false | _ :: _ => true end
  | JObj _ => true
  end.

(** [a || b] *)
Definition js_or (a b : jsval) : jsval :=
  if truthy a then a else b.

Infix "|||" := js_or (at level 50, left associativity).

(** The first field named [k] of an object literal. *)
Fixpoint field (k : jsstring) (fields : list (jsstring * jsval)) : jsval :=
  match fields with
  | [] => JUndefined
  | (k', v) :: r => if jsstring_eqb k k' then v else field k r
  end.

(** Whether [ToString(v)], as a template literal applies it to a hole,
    throws: it does on an object with a property [toString] of its own,
    no value of the model being callable (and [valueOf], own or
    inherited, yielding no primitive either). *)
Definition toStringThrows (v : jsval) : bool :=
  match v with
  | JObj fields =>
      existsb (fun kv => jsstring_eqb (fst kv) (lit "toString")) fields
  | _ => false
  end.

(** [o?.name]: [undefined] when [o] is [null] or [undefined]; a
    primitive has no property [name] of its own or inherited. *)
Definition optName (o : jsval) : jsval :=
  match o with
  | JObj fields => field (lit "name") fields
  | _ => JUndefined
  end.

(** [n < 0] *)
Definition isNegative (n : double) : bool :=
  match n with
  | S754_infinity s | S754_finite s _ _ => s
  | S754_nan | S754_zero _ => false
  end.

(** [Math.floor(n / 1000)] *)
Definition floorDiv1000 (n : double) : jsnum :=
  Math_floor (js_div n (ofZ 1000)).

(** [d ? Math.floor(d / 1000) : 0] for a duration [d] that is a number
    when present; [None] is a missing ([undefined] or [null]) one. *)
Definition durationSeconds (d : option double) : jsnum :=
  match d with
  | Some n => if numTruthy n then floorDiv1000 n else Fin 0
  | None => Fin 0
  end.

(** ** What the scraping client hands over *)

(** An item of the array [client.search] resolves with, when it is an
    object; the handler reads these five properties.  A property that is
    absent reads [undefined]. *)
Module Track.
Record t : Type := mk {
  title : jsval;
  url : jsval;
  author : jsval;
  thumbnail : jsval;
  duration : option double
}.
End Track.

(** The object [client.getSongInfo] resolves with, as far as the
    handler reads it. *)
Module SongInfo.
Record t : Type := mk {
  title : jsval;
  url : jsval;
  author : jsval;
  thumbnail : jsval;
  duration : option double;
  genre : jsval;
  publishedAt : jsval
}.
End SongInfo.

(** What a rejected call carries, as far as the handler reads it.
    Anything can be thrown: [mk m] is a value whose property [message]
    reads [m] (an [Error], or any other object or primitive, [m] being
    [undefined] where there is no such property); [nullish] is [null] or
    [undefined], of which no property can be read. *)
Module JsError.
Inductive t : Type :=
  | mk (message : jsval)
  | nullish.

(** [err.message], where it can be read. *)
Definition message (err : t) : jsval :=
  match err with
  | mk m => m
  | nullish => JUndefined
  end.
End JsError.

Inductive SearchOutcome : Type :=
  | SearchResolved (searchResults : option (list (option Track.t)))
      (* [None]: resolved with [null] or [undefined] *)
  | SearchRejected (error : JsError.t).

Inductive DetailOutcome : Type :=
  | DetailResolved (songInfo : SongInfo.t)
  | DetailRejected (err : JsError.t).

(** The client as an oracle.  [getSongInfo] receives the url only; the
    position of the track in the search results is the oracle's way of
    answering two lookups of one url differently. *)
Record Client : Type := {
  search : jsstring -> jsstring -> Z -> SearchOutcome;
  getSongInfo : nat -> jsval -> DetailOutcome
}.

(** The calls the handler makes on the client, in the order made. *)
Inductive Call : Type :=
  | CallSearch (query kind : jsstring) (limit : Z)
  | CallGetSongInfo (url : jsval).

(** ** The records of the response *)

Record EnrichedTrack : Type := {
  title : jsval;
  url : jsval;
  author : jsval;
  thumbnail : jsval;
  duration_seconds : jsnum;
  genre : jsval;
  publishedAt : jsval;
  fetchError : bool;
  errorMessage : option jsval   (* [None]: the object has no such key *)
}.

Definition str (s : string) : jsval := JStr (lit s).

(** Lines 118-128: the item has no url ([track] may be [null]). *)
Definition missingUrlRecord (track : option Track.t) : EnrichedTrack :=
  {| title := from_option Track.title JUndefined track
                ||| str "Unknown Title (URL missing)";
     url := JNull;
     author := optName (from_option Track.author JUndefined track)
                 ||| str "Unknown Artist";
     thumbnail := from_option Track.thumbnail JUndefined track ||| JNull;
     duration_seconds := durationSeconds (track ≫= Track.duration);
     genre := str "Unknown";
     publishedAt := str "Unknown";
     fetchError := true;
     errorMessage := Some (str "Missing track URL in search result") |}.

(** Lines 134-143: the lookup resolved. *)
Definition successRecord (songInfo : SongInfo.t) (track : Track.t)
  : EnrichedTrack :=
  {| title := SongInfo.title songInfo ||| str "Unknown Title";
     url := SongInfo.url songInfo ||| Track.url track;
     author := optName (SongInfo.author songInfo) ||| str "Unknown Artist";
     thumbnail := SongInfo.thumbnail songInfo ||| JNull;
     duration_seconds := durationSeconds (SongInfo.duration songInfo);
     genre := SongInfo.genre songInfo ||| str "Unknown";
     publishedAt := SongInfo.publishedAt songInfo ||| str "Unknown";
     fetchError := false;
     errorMessage := None |}.

(** Lines 148-158: the lookup rejected with [err]. *)
Definition failedRecord (track : Track.t) (err : JsError.t)
  : EnrichedTrack :=
  {| title := Track.title track ||| str "Unknown Title (fetch failed)";
     url := Track.url track ||| JNull;
     author := optName (Track.author track) ||| str "Unknown Artist";
     thumbnail := Track.thumbnail track ||| JNull;
     duration_seconds := durationSeconds (Track.duration track);
     genre := str "Unknown";
     publishedAt := str "Unknown";
     fetchError := true;
     errorMessage := Some (JsError.message err) |}.

(** ** The fan-out over the search results *)

(** Lines 112-160, the async callback of [searchResults.map]: the
    lookups issued for one item and the record the callback returns for
    it, where it returns.  It returns on every path but one: in the
    [catch], line 146 stands before the [return] and may throw
    ([catchLogThrows] and [detailRejects] below), and the record of lines
    148-158 is then never built. *)
Definition detailTask (client : Client) (i : nat) (track : option Track.t)
  : EnrichedTrack * list Call :=
  match track with
  | None => (missingUrlRecord track, [])
  | Some t =>
      if negb (truthy (Track.url t)) then (missingUrlRecord track, [])
      else
        (match getSongInfo client i (Track.url t) with
         | DetailResolved songInfo => successRecord songInfo t
         | DetailRejected err => failedRecord t err
         end,
         [CallGetSongInfo (Track.url t)])
  end.

(** Line 146, the template literal the [catch] logs before it returns:
    it prints [track.url], reads [err.message] and prints it, and each of
    the three steps may throw. *)
Definition catchLogThrows (track : Track.t) (err : JsError.t) : bool :=
  toStringThrows (Track.url track)
  || match err with
     | JsError.nullish => true
     | JsError.mk message => toStringThrows message
     end.

(** Whether the callback throws instead of returning: the lookup
    rejected and line 146 threw inside the [catch].  The promise of the
    item then rejects. *)
Definition detailRejects (client : Client) (i : nat)
    (track : option Track.t) : bool :=
  match track with
  | None => false
  | Some t =>
      truthy (Track.url t)
      && match getSongInfo client i (Track.url t) with
         | DetailResolved _ => false
         | DetailRejected err => catchLogThrows t err
         end
  end.

(** A promise as the join finds it: [Ready v] is fulfilled already, its
    callback having returned without waiting; [Waiting o] settles later,
    fulfilled with [v] when [o] is [Some v] and rejected when [o] is
    [None]. *)
Inductive Promise (A : Type) : Type :=
  | Ready (v : A)
  | Waiting (settlesAs : option A).
Arguments Ready {A} v.
Arguments Waiting {A} settlesAs.

(** The promise of an item: it waits exactly when a lookup was
    issued. *)
Definition detailPromise (client : Client) (i : nat)
    (track : option Track.t) : Promise EnrichedTrack :=
  let '(record, calls) := detailTask client i track in
  match calls with
  | [] => Ready record
  | _ :: _ =>
      Waiting (if detailRejects client i track then None else Some record)
  end.

(** [Promise.all]: one slot per promise, in the order of the input
    array, filled from the start for a promise that is ready.  [order]
    lists the positions in the order in which the waiting promises
    settle; the fulfilment of position [i] writes slot [i], and the
    settling of a position that is ready or outside the array writes
    nothing. *)
Definition startSlot {A} (p : Promise A) : option A :=
  match p with
  | Ready v => Some v
  | Waiting _ => None
  end.

Definition settle {A} (promises : list (Promise A)) (slots : list (option A))
    (i : nat) : list (option A) :=
  match promises !! i with
  | Some (Waiting (Some v)) => <[i := Some v]> slots
  | _ => slots
  end.

(** The slots once the promises listed in [order] have settled. *)
Definition settleAll {A} (promises : list (Promise A)) (order : list nat)
  : list (option A) :=
  fold_left (settle promises) order (startSlot <$> promises).

Definition rejectsAt {A} (promises : list (Promise A)) (i : nat) : bool :=
  match promises !! i with
  | Some (Waiting None) => true
  | _ => false
  end.

(** What a promise is fulfilled with, if it is. *)
Definition fulfilment {A} (p : Promise A) : option A :=
  match p with
  | Ready v => Some v
  | Waiting settlesAs => settlesAs
  end.

Inductive Joined (A : Type) : Type :=
  | JoinValues (values : list A)   (* the array the [await] evaluates to *)
  | JoinRejected                   (* the [await] throws *)
  | JoinPending.                   (* the [await] has not returned *)
Arguments JoinValues {A} values.
Arguments JoinRejected {A}.
Arguments JoinPending {A}.

(** [await Promise.all(promises)].  The join rejects as soon as a
    promise rejects; a promise that rejects is a waiting one, so no
    array is complete before it settles, and the join rejects exactly
    when the settling of such a promise is among those of [order]. *)
Definition Promise_all {A} (promises : list (Promise A)) (order : list nat)
  : Joined A :=
  if existsb (rejectsAt promises) order then JoinRejected
  else from_option JoinValues JoinPending (mapM id (settleAll promises order)).

(** ** The response *)

Record SearchResponse : Type := {
  query : jsstring;
  requested_limit : option qval;   (* [None]: [undefined], no such key in the JSON *)
  processed_limit : Z;
  actual_result_count : nat;
  developer : jsstring;
  results : list EnrichedTrack;
  message : option jsstring
}.

Inductive Body : Type :=
  | BadRequestBody (error : jsstring)                   (* [{ error }] *)
  | SearchBody (response : SearchResponse)
  | ServerErrorBody (error message developer : jsstring).

Inductive Outcome : Type :=
  | Responded (status : Z) (body : Body)
  | Pending.   (* the handler is still awaiting the join *)

Definition badRequest : Outcome :=
  Responded 400
    (BadRequestBody
       (lit "Bad Request: Missing or invalid search query. Please provide a non-empty "
          ++ 34%N :: lit "q" ++ 34%N :: lit " parameter.")).   (* 34: the double quote *)

Definition internalServerError : Outcome :=
  Responded 500
    (ServerErrorBody
       (lit "Internal Server Error")
       (lit "An unexpected error occurred while processing the SoundCloud search.")
       (lit "Ehsan Fazeli")).

(** ** The handler *)

Record Request : Type := {
  req_q : option qval;       (* [req.query.q] *)
  req_limit : option qval    (* [req.query.limit] *)
}.

(** Line 72, negated: the query text when [q] is a string that is not
    empty after trimming. *)
Definition validQuery (q : option qval) : option jsstring :=
  match q with
  | None => None                               (* [!query] *)
  | Some (QStr []) => None                     (* [!query] *)
  | Some (QStr s) =>
      match trim s with
      | [] => None                             (* [query.trim() === ''] *)
      | _ :: _ => Some s
      end
  | Some (QArr _) | Some (QObj _) => None      (* [typeof query !== 'string'] *)
  end.

(** Lines 67-186, for a request on which [parseInt] of line 78
    returns ([searchRoute] below has the others).  The outcome, and the
    calls made on the client. *)
Definition handleSearch (req : Request) (client : Client) (order : list nat)
  : Outcome * list Call :=
  match validQuery (req_q req) with
  | None => (badRequest, [])
  | Some q =>
      let rawLimit := req_limit req in
      let limit := normalizeLimit rawLimit in
      let searchCall := CallSearch q (lit "track") limit in
      match search client q (lit "track") limit with
      | SearchRejected _ => (internalServerError, [searchCall])
      | SearchResolved None =>
          (* line 95 reads [searchResults.length] and throws *)
          (internalServerError, [searchCall])
      | SearchResolved (Some []) =>
          (Responded 200
             (SearchBody
                {| query := q;
                   requested_limit := rawLimit;
                   processed_limit := limit;
                   actual_result_count := 0;
                   developer := lit "Ehsan Fazeli";
                   results := [];
                   message := Some (lit "No tracks found for this query.") |}),
           [searchCall])
      | SearchResolved (Some searchResults) =>
          let tasks := imap (detailTask client) searchResults in
          let calls := searchCall :: concat (snd <$> tasks) in
          match Promise_all (imap (detailPromise client) searchResults) order with
          | JoinValues detailedResults =>
              (Responded 200
                 (SearchBody
                    {| query := q;
                       requested_limit := rawLimit;
                       processed_limit := limit;
                       actual_result_count := length detailedResults;
                       developer := lit "Ehsan Fazeli";
                       results := detailedResults;
                       message := None |}),
               calls)
          | JoinRejected =>
              (* the outer [catch] *)
              (internalServerError, calls)
          | JoinPending => (Pending, calls)
          end
      end
  end.

(** What becomes of a request to the route. *)
Inductive RouteResult : Type :=
  | Handled (result : Outcome * list Call)
  | Unhandled.   (* the handler threw outside its [try]: its promise
                    rejects with nobody to catch it, nothing is sent *)

(** Lines 67-186.  Line 78 stands before the [try]. *)
Definition searchRoute (req : Request) (client : Client) (order : list nat)
  : RouteResult :=
  match validQuery (req_q req) with
  | None => Handled (handleSearch req client order)
  | Some _ =>
      match processedLimit (req_limit req) with
      | None => Unhandled
      | Some _ => Handled (handleSearch req client order)
      end
  end.

(** ** The earlier variant of the handler ([src/unnamed/part_000])

    The same route without the guards of [server.js]: [q] is only tested
    for truthiness, the limit is [parseInt(req.query.limit) || 10] with no
    radix and no bounds, the url of an item is looked up unconditionally,
    and the records carry no [fetchError]. *)

Module Part000.

Definition isHexDigit (c : N) : bool :=
  (isDigit c
   || (97 <=? c) && (c <=? 102)      (* a .. f *)
   || (65 <=? c) && (c <=? 70))%N.   (* A .. F *)

Definition hexDigitValue (c : N) : Z :=
  if isDigit c then Z.of_N c - 48
  else if (97 <=? c)%N then Z.of_N c - 87
  else Z.of_N c - 55.

Fixpoint leadingHexDigits (s : jsstring) : jsstring :=
  match s with
  | c :: r => if isHexDigit c then c :: leadingHexDigits r else []
  | [] => []
  end.

Definition hexValue (ds : jsstring) : Z :=
  fold_left (fun acc c => 16 * acc + hexDigitValue c) ds 0.

(** [parseInt(s)]: without a radix a leading [0x] or [0X] selects
    radix 16.  The result is the integer read; [parseInt] returns the
    double nearest to it, which is that integer as long as it has at most
    53 binary digits. *)
Definition parseInt (s : jsstring) : option Z :=
  let '(sign, body) := splitSign (trimStart s) in
  match body with
  | 48%N :: x :: r =>
      if ((x =? 120) || (x =? 88))%N then
        match leadingHexDigits r with
        | [] => None
        | ds => Some (sign * hexValue ds)
        end
      else
        match leadingDigits body with
        | [] => None
        | ds => Some (sign * decimalValue ds)
        end
  | _ =>
      match leadingDigits body with
      | [] => None
      | ds => Some (sign * decimalValue ds)
      end
  end.

(** Line 23: [parseInt(req.query.limit) || 10], once [parseInt] has
    returned (it throws where [limitThrows] says) and for an integer of
    at most 53 binary digits. *)
Definition limitOf (rawLimit : option qval) : Z :=
  match parseInt (paramToString rawLimit) with
  | None => 10
  | Some n => if n =? 0 then 10 else n
  end.

(** Line 25, negated: [q] is truthy. *)
Definition truthyQuery (q : option qval) : option qval :=
  match q with
  | None | Some (QStr []) => None
  | Some v => Some v
  end.

Record Client : Type := {
  search : qval -> jsstring -> Z -> SearchOutcome;
  getSongInfo : nat -> jsval -> DetailOutcome
}.

Inductive Call : Type :=
  | CallSearch (query : qval) (kind : jsstring) (limit : Z)
  | CallGetSongInfo (url : jsval).

Record Result : Type := {
  title : jsval;
  url : jsval;
  author : jsval;
  thumbnail : jsval;
  duration_seconds : jsnum;
  genre : jsval;
  publishedAt : jsval
}.

(** Lines 39-47. *)
Definition successRecord (songInfo : SongInfo.t) : Result :=
  {| title := SongInfo.title songInfo ||| str "Unknown Title";
     url := SongInfo.url songInfo ||| JNull;
     author := optName (SongInfo.author songInfo) ||| str "Unknown Artist";
     thumbnail := SongInfo.thumbnail songInfo ||| JNull;
     duration_seconds := durationSeconds (SongInfo.duration songInfo);
     genre := SongInfo.genre songInfo ||| str "Unknown";
     publishedAt := SongInfo.publishedAt songInfo ||| str "Unknown" |}.

(** Lines 50-58. *)
Definition failedRecord (track : Track.t) : Result :=
  {| title := str "Unknown Title";
     url := Track.url track ||| JNull;
     author := str "Unknown Artist";
     thumbnail := JNull;
     duration_seconds := Fin 0;
     genre := str "Unknown";
     publishedAt := str "Unknown" |}.

(** Lines 37-59, for an item that is an object. *)
Definition detailRecord (client : Client) (i : nat) (track : Track.t)
  : Result :=
  match getSongInfo client i (Track.url track) with
  | DetailResolved songInfo => successRecord songInfo
  | DetailRejected _ => failedRecord track
  end.

(** Lines 36-60.  A [null] item makes [track.url] throw in the [try]
    and again in the [catch], so its promise rejects: [None]. *)
Definition detailTask (client : Client) (i : nat) (track : option Track.t)
  : option Result * list Call :=
  match track with
  | None => (None, [])
  | Some t => (Some (detailRecord client i t), [CallGetSongInfo (Track.url t)])
  end.

Inductive Joined (A : Type) : Type :=
  | Values (l : list A)
  | Rejection
  | StillPending.
Arguments Values {A} l.
Arguments Rejection {A}.
Arguments StillPending {A}.

(** [Promise.all] over promises that may reject ([None]): the first
    rejection to settle rejects the join. *)
Fixpoint joinFrom {A} (promises : list (option A)) (order : list nat)
    (slots : list (option A)) : Joined A :=
  match order with
  | [] => from_option Values StillPending (mapM id slots)
  | i :: order' =>
      match promises !! i with
      | Some None => Rejection
      | Some (Some v) => joinFrom promises order' (<[i := Some v]> slots)
      | None => joinFrom promises order' slots
      end
  end.

Definition Promise_all {A} (promises : list (option A)) (order : list nat)
  : Joined A :=
  joinFrom promises order (replicate (length promises) None).

Record SearchResponse : Type := {
  query : qval;
  total_results : nat;
  developer : jsstring;
  results : list Result
}.

Inductive Body : Type :=
  | BadRequestBody (error : jsstring)
  | SearchBody (response : SearchResponse)
  | ServerErrorBody (error developer : jsstring).

Inductive Outcome : Type :=
  | Responded (status : Z) (body : Body)
  | Pending.

Definition badRequest : Outcome :=
  Responded 400
    (BadRequestBody
       (lit "Missing search query. Please provide a "
          ++ 34%N :: lit "q" ++ 34%N :: lit " parameter.")).

Definition internalServerError : Outcome :=
  Responded 500
    (ServerErrorBody
       (lit "Internal server error while searching SoundCloud.")
       (lit "Ehsan Fazeli")).

(** Lines 21-77, for a request on which [parseInt] of line 23
    returns. *)
Definition handleSearch (req : Request) (client : Client) (order : list nat)
  : Outcome * list Call :=
  let limit := limitOf (req_limit req) in
  match truthyQuery (req_q req) with
  | None => (badRequest, [])
  | Some q =>
      let searchCall := CallSearch q (lit "track") limit in
      match search client q (lit "track") limit with
      | SearchRejected _ => (internalServerError, [searchCall])
      | SearchResolved None =>
          (* [searchResults.map] throws *)
          (internalServerError, [searchCall])
      | SearchResolved (Some searchResults) =>
          let tasks := imap (detailTask client) searchResults in
          let calls := searchCall :: concat (snd <$> tasks) in
          match Promise_all (fst <$> tasks) order with
          | Values detailedResults =>
              (Responded 200
                 (SearchBody
                    {| query := q;
                       total_results := length detailedResults;
                       developer := lit "Ehsan Fazeli";
                       results := detailedResults |}),
               calls)
          | Rejection => (internalServerError, calls)
          | StillPending => (Pending, calls)
          end
      end
  end.

Inductive RouteResult : Type :=
  | Handled (result : Outcome * list Call)
  | Unhandled.   (* the handler threw outside its [try] *)

(** Lines 21-77.  Line 23 stands before the test of [q] and before the
    [try]. *)
Definition searchRoute (req : Request) (client : Client) (order : list nat)
  : RouteResult :=
  if limitThrows (req_limit req) then Unhandled
  else Handled (handleSearch req client order).

End Part000.

(** ** Reading the handler's result *)

(** The body of a 200 response. *)
Definition searchResponse (o : Outcome) : option SearchResponse :=
  match o with
  | Responded 200 (SearchBody response) => Some response
  | _ => None
  end.

(** The lookups [detailTask] issues for an item: one when the item has
    a url, none otherwise. *)
Definition lookupCalls (track : option Track.t) : list Call :=
  match track with
  | Some t =>
      if truthy (Track.url t) then [CallGetSongInfo (Track.url t)] else []
  | None => []
  end.

(** The duration [detailTask] computes [duration_seconds] from: the
    one of the detail payload when the lookup resolved, the one of the
    search item on the two other paths. *)
Definition sourceDuration (client : Client) (i : nat)
    (track : option Track.t) : option double :=
  match track with
  | None => None
  | Some t =>
      if negb (truthy (Track.url t)) then Track.duration t
      else
        match getSongInfo client i (Track.url t) with
        | DetailResolved songInfo => SongInfo.duration songInfo
        | DetailRejected _ => Track.duration t
        end
  end.

(** ** The failed-lookup record in the words of the specification

    "Synthesize an EnrichedTrack from the Candidate's own fields with
    the same defaulting rules, fetchError=true, and the failure's message
    attached": the rules of [successRecord] applied to the fields the
    search item carries (it carries no genre and no date). *)

Definition asSongInfo (track : Track.t) : SongInfo.t :=
  SongInfo.mk (Track.title track) (Track.url track) (Track.author track)
    (Track.thumbnail track) (Track.duration track) JUndefined JUndefined.

Definition specFailedRecord (track : Track.t) (err : JsError.t)
  : EnrichedTrack :=
  let r := successRecord (asSongInfo track) track in
  {| title := title r;
     url := url r;
     author := author r;
     thumbnail := thumbnail r;
     duration_seconds := duration_seconds r;
     genre := genre r;
     publishedAt := publishedAt r;
     fetchError := true;
     errorMessage := Some (JsError.message err) |}.

(** ** A sample request

    The scenario of the specification: [q=lofi], [limit=3], three search
    results, the lookup of the second one fails. *)

Module Sample.

Definition request : Request :=
  {| req_q := Some (QStr (lit "lofi"));
     req_limit := Some (QStr (lit "3")) |}.

Definition track (n : string) : Track.t :=
  Track.mk JUndefined (str ("https://soundcloud.com/a/" ++ n)) JUndefined
    JUndefined None.

Definition candidates : list (option Track.t) :=
  [Some (track "one"); Some (track "two"); Some (track "three")].

Definition song (n : string) (ms : Z) : SongInfo.t :=
  SongInfo.mk (str n) (str ("https://soundcloud.com/a/" ++ n))
    (JObj [(lit "name", str "Artist")]) JUndefined (Some (ofZ ms))
    (str "lofi") JUndefined.

Definition boom : JsError.t := JsError.mk (str "Couldn't parse html!").

Definition client : Client :=
  {| search := fun _ _ _ => SearchResolved (Some candidates);
     getSongInfo := fun i _ =>
       match i with
       | 0%nat => DetailResolved (song "one" 185500)
       | 1%nat => DetailRejected boom
       | _ => DetailResolved (song "three" 61999)
       end |}.

(** The lookups settle last to first. *)
Definition order : list nat := [2; 0; 1]%nat.

End Sample.

(** ** Configuration from the environment, CORS and start-up
    ([server.js] lines 22-44 and 189-196)

    An environment variable is a string when set: [None] is an unset
    one. *)

(** [s.split(',')] *)
Fixpoint splitComma (s : jsstring) : list jsstring :=
  match s with
  | [] => [[]]
  | c :: r =>
      if (c =? 44)%N then [] :: splitComma r
      else
        match splitComma r with
        | piece :: pieces => (c :: piece) :: pieces
        | [] => [[c]]
        end
  end.

(** [a.join(',')], which is also [ToString] of an array of strings. *)
Fixpoint joinComma (a : list jsstring) : jsstring :=
  match a with
  | [] => []
  | x :: r =>
      match r with
      | [] => x
      | _ :: _ => x ++ 44%N :: joinComma r
      end
  end.

(** [a.indexOf(x)] *)
Fixpoint indexOfFrom (a : list jsstring) (x : jsstring) (i : Z) : Z :=
  match a with
  | [] => -1
  | y :: r => if jsstring_eqb y x then i else indexOfFrom r x (i + 1)
  end.

Definition indexOf (a : list jsstring) (x : jsstring) : Z :=
  indexOfFrom a x 0.

(** The value of [allowedOrigins]: the string ['*'] or an array. *)
Inductive AllowedOrigins : Type :=
  | AllOrigins
  | OriginList (origins : list jsstring).

(** Line 30: [process.env.ALLOWED_ORIGINS ? ....split(',') : '*']; the
    empty string is falsy. *)
Definition allowedOriginsOf (env : option jsstring) : AllowedOrigins :=
  match env with
  | None | Some [] => AllOrigins
  | Some s => OriginList (splitComma s)
  end.

(** What the [origin] callback answers: [callback(null, true)] or
    [callback(new Error(message))]. *)
Inductive CorsDecision : Type :=
  | CorsAllow
  | CorsDeny (message : jsstring).

(** Lines 33-42, on the [Origin] header of the request ([None]: no such
    header). *)
Definition corsOrigin (allowedOrigins : AllowedOrigins)
    (origin : option jsstring) : CorsDecision :=
  match origin with
  | None | Some [] => CorsAllow                         (* [!origin] *)
  | Some o =>
      match allowedOrigins with
      | AllOrigins => CorsAllow
      | OriginList origins =>
          if negb (indexOf origins o =? -1) then CorsAllow
          else CorsDeny (lit "Not allowed by CORS")
      end
  end.

(** [String(n)] of an integer below [10^21] in absolute value. *)
Definition numberToString (n : Z) : jsstring :=
  lit (NilZero.string_of_int (Z.to_int n)).

(** Line 22, as the template of line 190 prints it:
    [process.env.PORT || 3000]. *)
Definition portText (env : option jsstring) : jsstring :=
  match env with
  | None | Some [] => numberToString 3000
  | Some s => s
  end.

Inductive LogLine : Type :=
  | ConsoleLog (text : jsstring)
  | ConsoleWarn (text : jsstring).

(** Lines 189-196: what the [listen] callback writes. *)
Definition startupLog (envPort envOrigins : option jsstring) : list LogLine :=
  let allowedOrigins := allowedOriginsOf envOrigins in
  [ConsoleLog
     (lit "SoundCloud Search API server running on port " ++ portText envPort);
   ConsoleLog
     (lit "CORS configured for origins: "
        ++ match allowedOrigins with
           | AllOrigins => lit "All Origins (*)"
           | OriginList origins => joinComma origins
           end)]
  ++ match allowedOrigins with
     | AllOrigins =>
         [ConsoleWarn
            (lit "CORS WARNING: Allowing all origins ('*'). This is insecure for production environments. Set the ALLOWED_ORIGINS environment variable.")]
     | OriginList _ => []
     end
  ++ [ConsoleLog
        (lit "Default search limit: " ++ numberToString DEFAULT_SEARCH_LIMIT
           ++ lit ", Max search limit: " ++ numberToString MAX_SEARCH_LIMIT)].


(** ** Reading the rounding of [SpecFloat]

    A shift record holds the digits kept, [shr_m], and two bits for the
    digits dropped.  [shr_frac mrs a b] reads the bits against the
    fraction [a / b] dropped: the round bit says it reaches a half, the
    sticky bit that it is neither nothing nor a half. *)
Definition shr_frac (mrs : shr_record) (a b : Z) : Prop :=
  0 ≤ a < b
  ∧ (shr_r mrs = true ↔ b ≤ 2 * a)
  ∧ (shr_s mrs = true ↔ a ≠ 0 ∧ 2 * a ≠ b).
(** * Properties *)

(** ** Strings *)

Lemma trimStart_nil_iff (s : jsstring) :
  trimStart s = [] ↔ Forall (λ c, isWhiteSpace c = true) s.
Proof.
  induction s as [|c r IH]; simpl.
  - split; [constructor | done].
  - destruct (isWhiteSpace c) eqn:Hc.
    + rewrite IH. split.
      * by constructor.
      * by inversion 1.
    + split; [done |]. inversion 1; congruence.
Qed.

Lemma trimStart_head (s : jsstring) c r :
  trimStart s = c :: r → isWhiteSpace c = false.
Proof.
  induction s as [|c' r' IH]; simpl; [done |].
  destruct (isWhiteSpace c') eqn:Hc; [done |].
  by intros [= <- _].
Qed.

Lemma trim_nil_iff (s : jsstring) :
  trim s = [] ↔ Forall (λ c, isWhiteSpace c = true) s.
Proof.
  unfold trim, trimEnd. split.
  - intros H. apply trimStart_nil_iff.
    destruct (trimStart s) as [|c r] eqn:Hs; [done |].
    apply (f_equal (@rev N)) in H. rewrite rev_involutive in H.
    change (rev []) with (@nil N) in H.
    apply trimStart_nil_iff in H.
    apply Forall_rev in H. rewrite rev_involutive in H.
    apply trimStart_head in Hs. inversion H; congruence.
  - intros H. apply trimStart_nil_iff in H. by rewrite H.
Qed.

(** ** The join *)

Section join.
Context {A : Type}.
Implicit Types (promises : list (Promise A)) (slots : list (option A)).

Lemma settle_length promises slots i :
  length (settle promises slots i) = length slots.
Proof.
  unfold settle. destruct (promises !! i) as [[v|[v|]]|]; try done.
  apply length_insert.
Qed.

Lemma settle_fold_lookup promises order slots i :
  length slots = length promises →
  fold_left (settle promises) order slots !! i
  = match promises !! i with
    | Some (Waiting (Some v)) =>
        if decide (i ∈ order) then Some (Some v) else slots !! i
    | _ => slots !! i
    end.
Proof.
  revert slots. induction order as [|j order IH]; intros slots Hlen;
    cbn [fold_left].
  - destruct (promises !! i) as [[v|[v|]]|]; try done.
    all: destruct (decide (i ∈ [])) as [Hin|]; [by inversion Hin | done].
  - rewrite IH by (by rewrite settle_length).
    assert (i ≠ j → settle promises slots j !! i = slots !! i) as Hne.
    { intros Hij. unfold settle.
      destruct (promises !! j) as [[v|[v|]]|]; try done.
      by rewrite list_lookup_insert_ne. }
    destruct (promises !! i) as [[v|[v|]]|] eqn:Hi.
    + destruct (decide (i = j)) as [->|Hij]; [| by apply Hne].
      unfold settle. by rewrite Hi.
    + destruct (decide (i ∈ order)) as [Hin|Hnin].
      * rewrite decide_True; [done | by right].
      * destruct (decide (i = j)) as [->|Hij].
        -- rewrite decide_True by left. unfold settle. rewrite Hi.
           apply list_lookup_insert_eq. rewrite Hlen.
           by eapply lookup_lt_Some.
        -- rewrite decide_False by (by intros [?|?]%elem_of_cons).
           by apply Hne.
    + destruct (decide (i = j)) as [->|Hij]; [| by apply Hne].
      unfold settle. by rewrite Hi.
    + destruct (decide (i = j)) as [->|Hij]; [| by apply Hne].
      unfold settle. by rewrite Hi.
Qed.

Lemma settleAll_length promises order :
  length (settleAll promises order) = length promises.
Proof.
  unfold settleAll. rewrite <- (length_fmap startSlot promises).
  generalize (startSlot <$> promises). induction order as [|j order IH];
    intros slots; [done |].
  cbn [fold_left]. by rewrite IH, settle_length.
Qed.

Lemma settleAll_lookup promises order i :
  settleAll promises order !! i
  = (λ p, match p with
          | Ready v => Some v
          | Waiting (Some v) => if decide (i ∈ order) then Some v else None
          | Waiting None => None
          end) <$> promises !! i.
Proof.
  unfold settleAll. rewrite settle_fold_lookup by apply length_fmap.
  rewrite list_lookup_fmap.
  destruct (promises !! i) as [[v|[v|]]|]; try done.
  by destruct (decide (i ∈ order)).
Qed.

Lemma rejectsAt_exists promises order :
  existsb (rejectsAt promises) order = true
  ↔ ∃ i, i ∈ order ∧ promises !! i = Some (Waiting None).
Proof.
  rewrite existsb_exists. unfold rejectsAt. split.
  - intros (i & Hin & Hr). exists i. split; [by apply list_elem_of_In |].
    by destruct (promises !! i) as [[v|[v|]]|].
  - intros (i & Hin & Hi). exists i. split; [by apply list_elem_of_In |].
    by rewrite Hi.
Qed.

(** The join rejects exactly when a promise that rejects settles. *)
Lemma Promise_all_rejected promises order :
  Promise_all promises order = JoinRejected
  ↔ ∃ i, i ∈ order ∧ promises !! i = Some (Waiting None).
Proof.
  rewrite <- rejectsAt_exists. unfold Promise_all.
  destruct (existsb (rejectsAt promises) order); [done |].
  split; [| done]. by destruct (mapM id (settleAll promises order)).
Qed.

(** The join returns exactly when every promise is fulfilled, the
    waiting ones having settled, and then returns the values in the order
    of the array, in whatever order the promises settled. *)
Lemma Promise_all_values promises order l :
  Promise_all promises order = JoinValues l
  ↔ mapM fulfilment promises = Some l
    ∧ ∀ i o, promises !! i = Some (Waiting o) → i ∈ order.
Proof.
  unfold Promise_all. split.
  - destruct (existsb (rejectsAt promises) order) eqn:Hr; [done |].
    destruct (mapM id (settleAll promises order)) as [l'|] eqn:Hm;
      [| done].
    intros [= <-]. apply mapM_Some_1 in Hm.
    assert (∀ i p, promises !! i = Some p →
              ∃ v, l' !! i = Some v ∧ fulfilment p = Some v
                   ∧ (∀ o, p = Waiting o → i ∈ order)) as Hpos.
    { intros i p Hp.
      pose proof (settleAll_lookup promises order i) as Hs.
      rewrite Hp in Hs. cbn in Hs.
      destruct (Forall2_lookup_l _ _ _ _ _ Hm Hs) as (v & Hv & Hpv).
      exists v. split; [done |]. cbn in Hpv.
      destruct p as [w|[w|]]; cbn; try done.
      destruct (decide (i ∈ order)); [| done]. split; [done |]. by intros. }
    split.
    + apply mapM_Some_2, Forall2_same_length_lookup. split.
      * apply Forall2_length in Hm. by rewrite <- Hm, settleAll_length.
      * intros i p v Hp Hv. destruct (Hpos i p Hp) as (v' & Hv' & Hf & _).
        congruence.
    + intros i o Hp. destruct (Hpos i _ Hp) as (v & _ & _ & Hin). eauto.
  - intros [Hm Hall]. apply mapM_Some_1 in Hm.
    assert (existsb (rejectsAt promises) order = false) as ->.
    { apply not_true_is_false. intros (i & _ & Hi)%rejectsAt_exists.
      destruct (Forall2_lookup_l _ _ _ _ _ Hm Hi) as (v & _ & Hv). done. }
    assert (settleAll promises order = Some <$> l) as ->.
    { apply list_eq. intros i. rewrite settleAll_lookup, list_lookup_fmap.
      destruct (promises !! i) as [p|] eqn:Hp.
      - destruct (Forall2_lookup_l _ _ _ _ _ Hm Hp) as (v & -> & Hv).
        cbn. destruct p as [w|[w|]]; cbn in *; try congruence.
        rewrite decide_True by eauto. congruence.
      - apply Forall2_length in Hm.
        rewrite (proj2 (lookup_ge_None l i)); [done |].
        rewrite <- Hm. by apply lookup_ge_None. }
    by rewrite mapM_fmap_Some.
Qed.

(** Whether every waiting promise is among those that settle. *)
Lemma all_waiting_settle_dec promises (order : list nat) :
  (∀ i o, promises !! i = Some (Waiting o) → i ∈ order)
  ∨ (∃ i o, promises !! i = Some (Waiting o) ∧ i ∉ order).
Proof.
  induction promises as [|p promises IH] using rev_ind.
  - left. by intros i o ?.
  - assert (∀ i q, (promises ++ [p]) !! i = Some q
              ↔ promises !! i = Some q ∨ (i = length promises ∧ q = p))
      as Hlook.
    { intros i q. rewrite lookup_app_Some, list_lookup_singleton_Some.
      split; [intros [?|(? & ? & ?)] | intros [?|[-> ->]]]; auto.
      - right. split; [lia | done].
      - right. split_and!; [lia | lia | done]. }
    destruct IH as [Hall | (i & o & Hi & Hn)].
    + destruct p as [v|o].
      * left. intros i o [?|[_ ?]]%Hlook; [eauto | done].
      * destruct (decide (length promises ∈ order)) as [Hin|Hnin].
        -- left. intros i o' [?|[-> _]]%Hlook; eauto.
        -- right. exists (length promises), o. split; [| done].
           apply Hlook. by right.
    + right. exists i, o. split; [| done]. apply Hlook. by left.
Qed.

End join.

(** ** The handler *)

Lemma validQuery_trim_nil s : trim s = [] → validQuery (Some (QStr s)) = None.
Proof. intros H. unfold validQuery. destruct s; [done |]. by rewrite H. Qed.

Lemma validQuery_Some q s :
  validQuery q = Some s ↔ q = Some (QStr s) ∧ trim s ≠ [].
Proof.
  unfold validQuery. split.
  - destruct q as [[[|c r]|?|?]|]; try done.
    destruct (trim (c :: r)) eqn:Ht; [done |].
    intros [= <-]. by rewrite Ht.
  - intros [-> Ht]. destruct s as [|c r]; [done |].
    by destruct (trim (c :: r)).
Qed.

Lemma detailTask_calls client i track :
  (detailTask client i track).2 = lookupCalls track.
Proof.
  unfold detailTask, lookupCalls. destruct track as [t|]; [| done].
  by destruct (truthy (Track.url t)).
Qed.

Lemma concat_fmap_bind {A B} (f : A → list B) (l : list A) :
  concat (f <$> l) = l ≫= f.
Proof. induction l as [|x l IH]; [done |]. cbn. by rewrite IH. Qed.

Lemma lookupCalls_nil_iff track :
  lookupCalls track = []
  ↔ track = None ∨ ∃ t, track = Some t ∧ truthy (Track.url t) = false.
Proof.
  unfold lookupCalls. destruct track as [t|]; [| by split; [left |]].
  destruct (truthy (Track.url t)) eqn:Hu; split; try done.
  - intros [? | (t' & [= <-] & ?)]; congruence.
  - intros _. right. by exists t.
Qed.

Lemma detailRejects_calls client i track :
  detailRejects client i track = true → lookupCalls track ≠ [].
Proof.
  unfold detailRejects, lookupCalls. destruct track as [t|]; [| done].
  by destruct (truthy (Track.url t)).
Qed.

(** The promise of an item waits exactly when a lookup was issued for
    the item. *)
Lemma detailPromise_waiting client i track :
  (∃ o, detailPromise client i track = Waiting o) ↔ lookupCalls track ≠ [].
Proof.
  unfold detailPromise. rewrite (surjective_pairing (detailTask client i track)).
  rewrite detailTask_calls. destruct (lookupCalls track); split; try done.
  - by intros [o ?].
  - intros _. by eexists.
Qed.

Lemma detailPromise_fulfilment client i track :
  fulfilment (detailPromise client i track)
  = if detailRejects client i track then None
    else Some (detailTask client i track).1.
Proof.
  pose proof (detailRejects_calls client i track) as Hr.
  unfold detailPromise. rewrite (surjective_pairing (detailTask client i track)).
  rewrite detailTask_calls. destruct (lookupCalls track) as [|call calls].
  - destruct (detailRejects client i track); [by destruct Hr | done].
  - by destruct (detailRejects client i track).
Qed.

Lemma detailPromise_rejects client i track :
  detailPromise client i track = Waiting None
  ↔ detailRejects client i track = true.
Proof.
  pose proof (detailRejects_calls client i track) as Hr.
  unfold detailPromise. rewrite (surjective_pairing (detailTask client i track)).
  rewrite detailTask_calls. destruct (lookupCalls track) as [|call calls].
  - split; [done |]. intros H. by destruct Hr.
  - by destruct (detailRejects client i track).
Qed.

Lemma mapM_fulfilment_detailPromise client candidates l :
  mapM fulfilment (imap (detailPromise client) candidates) = Some l
  ↔ (∀ i c, candidates !! i = Some c → detailRejects client i c = false)
    ∧ l = imap (λ i c, (detailTask client i c).1) candidates.
Proof.
  rewrite mapM_Some. split.
  - intros H. assert (∀ i c, candidates !! i = Some c →
                        detailRejects client i c = false
                        ∧ l !! i = Some (detailTask client i c).1) as Hpos.
    { intros i c Hc.
      assert (imap (detailPromise client) candidates !! i
              = Some (detailPromise client i c)) as Hp
        by (by rewrite list_lookup_imap, Hc).
      destruct (Forall2_lookup_l _ _ _ _ _ H Hp) as (v & Hv & Hf).
      rewrite detailPromise_fulfilment in Hf.
      destruct (detailRejects client i c); [done |]. by injection Hf as <-. }
    split; [intros i c Hc; by apply Hpos |].
    apply list_eq. intros i. rewrite list_lookup_imap.
    destruct (candidates !! i) as [c|] eqn:Hc; [by apply Hpos |].
    apply lookup_ge_None. apply Forall2_length in H.
    rewrite <- H, length_imap. by apply lookup_ge_None.
  - intros [Hok ->]. apply Forall2_same_length_lookup. split.
    + by rewrite !length_imap.
    + intros i p v. rewrite !list_lookup_imap.
      destruct (candidates !! i) as [c|] eqn:Hc; [| done].
      intros [= <-] [= <-]. rewrite detailPromise_fulfilment.
      by rewrite (Hok i c Hc).
Qed.

(** What the join of the handler evaluates to. *)
Lemma detail_join_values client candidates order l :
  Promise_all (imap (detailPromise client) candidates) order = JoinValues l
  ↔ (∀ i c, candidates !! i = Some c → detailRejects client i c = false)
    ∧ (∀ i c, candidates !! i = Some c → lookupCalls c ≠ [] → i ∈ order)
    ∧ l = imap (λ i c, (detailTask client i c).1) candidates.
Proof.
  rewrite Promise_all_values, mapM_fulfilment_detailPromise.
  assert ((∀ i o, imap (detailPromise client) candidates !! i
                  = Some (Waiting o) → i ∈ order)
          ↔ (∀ i c, candidates !! i = Some c → lookupCalls c ≠ [] →
               i ∈ order)) as ->; [| tauto].
  split.
  - intros H i c Hc Hcalls.
    apply (detailPromise_waiting client i c) in Hcalls as [o Ho].
    apply (H i o). by rewrite list_lookup_imap, Hc, <- Ho.
  - intros H i o. rewrite list_lookup_imap.
    destruct (candidates !! i) as [c|] eqn:Hc; [| done].
    intros [= Ho]. apply (H i c Hc).
    apply (detailPromise_waiting client i c). eauto.
Qed.

Lemma detail_join_rejected client candidates order :
  Promise_all (imap (detailPromise client) candidates) order = JoinRejected
  ↔ ∃ i c, i ∈ order ∧ candidates !! i = Some c
           ∧ detailRejects client i c = true.
Proof.
  rewrite Promise_all_rejected. split.
  - intros (i & Hin & Hi). rewrite list_lookup_imap in Hi.
    destruct (candidates !! i) as [c|] eqn:Hc; [| done].
    injection Hi as Hi. exists i, c. split_and!; [done.. |].
    by apply detailPromise_rejects.
  - intros (i & c & Hin & Hc & Hr). exists i. split; [done |].
    rewrite list_lookup_imap, Hc. cbn. f_equal.
    by apply detailPromise_rejects.
Qed.

(** The handler on a search that resolved with an array, once every
    lookup has settled, the [catch] having returned where it ran. *)
Lemma handleSearch_resolved req client order q candidates :
  validQuery (req_q req) = Some q →
  search client q (lit "track") (normalizeLimit (req_limit req))
    = SearchResolved (Some candidates) →
  (∀ i c, candidates !! i = Some c → lookupCalls c ≠ [] → i ∈ order) →
  (∀ i c, candidates !! i = Some c → detailRejects client i c = false) →
  handleSearch req client order =
    (Responded 200
       (SearchBody
          {| query := q;
             requested_limit := req_limit req;
             processed_limit := normalizeLimit (req_limit req);
             actual_result_count := length candidates;
             developer := lit "Ehsan Fazeli";
             results := imap (λ i c, (detailTask client i c).1) candidates;
             message :=
               match candidates with
               | [] => Some (lit "No tracks found for this query.")
               | _ :: _ => None
               end |}),
     CallSearch q (lit "track") (normalizeLimit (req_limit req))
       :: (candidates ≫= lookupCalls)).
Proof.
  intros Hq Hs Hall Hok. unfold handleSearch. rewrite Hq, Hs.
  destruct candidates as [|c cs] eqn:Hc; [done |]. rewrite <- Hc in *.
  clear Hc.
  rewrite (proj2 (detail_join_values client candidates order _)
             (conj Hok (conj Hall eq_refl))).
  rewrite length_imap, !fmap_imap. do 3 f_equal.
  rewrite (imap_ext _ (const lookupCalls))
    by (intros; apply detailTask_calls).
  rewrite imap_const. apply concat_fmap_bind.
Qed.

(** ** The calls and the records of a request *)

(** The calls do not wait for the join: they are the same whether or
    not the lookups settle. *)
Lemma handleSearch_calls req client order :
  (handleSearch req client order).2
  = match validQuery (req_q req) with
    | None => []
    | Some q =>
        CallSearch q (lit "track") (normalizeLimit (req_limit req))
          :: match search client q (lit "track")
                     (normalizeLimit (req_limit req)) with
             | SearchResolved (Some candidates) => candidates ≫= lookupCalls
             | _ => []
             end
    end.
Proof.
  unfold handleSearch. destruct (validQuery (req_q req)) as [q|]; [| done].
  destruct (search client q _ _) as [[[|c cs]|]|]; try done.
  set (candidates := c :: cs).
  assert (concat (imap (detailTask client) candidates).*2
          = candidates ≫= lookupCalls) as Hcalls.
  { rewrite fmap_imap.
    rewrite (imap_ext _ (const lookupCalls))
      by (intros; apply detailTask_calls).
    rewrite imap_const. apply concat_fmap_bind. }
  destruct (Promise_all _ order); cbn [snd]; by rewrite Hcalls.
Qed.

(** The records of a 200 response are those of the search results, in
    order. *)
Lemma handleSearch_200_results req client order q candidates response calls :
  validQuery (req_q req) = Some q →
  search client q (lit "track") (normalizeLimit (req_limit req))
    = SearchResolved (Some candidates) →
  handleSearch req client order = (Responded 200 (SearchBody response), calls) →
  results response = imap (λ i c, (detailTask client i c).1) candidates.
Proof.
  intros Hq Hs. unfold handleSearch. rewrite Hq, Hs.
  destruct candidates as [|c cs] eqn:Hc; [by intros [= <- _] |].
  rewrite <- Hc. clear Hc.
  destruct (Promise_all _ order) as [l| |] eqn:Hj; [| done..].
  apply detail_join_values in Hj as (_ & _ & ->). by intros [= <- _].
Qed.

(** ** The responses *)

(** C1.  One record per search result is not what the handler gives
    when the [catch] of an item throws.  Three search results, the lookup
    of the second one rejects with [undefined]: line 146 reads
    [err.message] inside the [catch], the promise of the item rejects,
    [Promise.all] rejects with it and the outer [catch] answers 500,
    whatever the order in which the lookups settle; the two other records
    are lost.  The comment of line 145 has it that the failure of one
    track does not fail the whole request. *)
Theorem C1_failed_lookup_fails_the_request :
  let client :=
    {| search := λ _ _ _, SearchResolved (Some Sample.candidates);
       getSongInfo := λ i _,
         match i with
         | 1%nat => DetailRejected JsError.nullish
         | _ => DetailResolved (Sample.song "one" 185500)
         end |} in
  searchRoute Sample.request client Sample.order
  = Handled (internalServerError,
             CallSearch (lit "lofi") (lit "track") 3
               :: ((λ t, CallGetSongInfo (Track.url t))
                     <$> [Sample.track "one"; Sample.track "two";
                          Sample.track "three"]))
  ∧ ∀ order response calls,
      handleSearch Sample.request client order
      ≠ (Responded 200 (SearchBody response), calls).
Proof.
  intros client. split; [reflexivity |].
  intros order response calls. unfold handleSearch.
  change (validQuery (req_q Sample.request)) with (Some (lit "lofi")).
  cbn beta iota. change (search client _ _ _)
    with (SearchResolved (Some Sample.candidates)).
  unfold Sample.candidates at 1. cbn beta iota.
  destruct (Promise_all _ order) as [l| |] eqn:Hj; [| done..].
  apply detail_join_values in Hj as (Hok & _).
  by specialize (Hok 1%nat (Some (Sample.track "two")) eq_refl).
Qed.

(** X23.  When no [catch] throws, the response carries one record per
    search result, whichever lookups fail and in whatever order the
    lookups settle: [actual_result_count], the length of [results] and
    the number of search results agree, and the record at position [i]
    is the one [detailTask] builds from the search result at position
    [i]. *)
Theorem handleSearch_one_record_per_result req client order q candidates :
  validQuery (req_q req) = Some q →
  search client q (lit "track") (normalizeLimit (req_limit req))
    = SearchResolved (Some candidates) →
  (∀ i c, candidates !! i = Some c → lookupCalls c ≠ [] → i ∈ order) →
  (∀ i c, candidates !! i = Some c → detailRejects client i c = false) →
  ∃ response calls,
    handleSearch req client order = (Responded 200 (SearchBody response), calls)
    ∧ actual_result_count response = length (results response)
    ∧ length (results response) = length candidates
    ∧ ∀ i, results response !! i
           = (λ c, (detailTask client i c).1) <$> candidates !! i.
Proof.
  intros Hq Hs Hall Hok. eexists _, _. split.
  - by apply handleSearch_resolved.
  - cbn. rewrite length_imap. split_and!; [done.. |].
    intros i. apply list_lookup_imap.
Qed.

Lemma handleSearch_one_record_per_result_witness :
  ∃ response calls,
    handleSearch Sample.request Sample.client Sample.order
      = (Responded 200 (SearchBody response), calls)
    ∧ actual_result_count response = length (results response)
    ∧ length (results response) = length Sample.candidates
    ∧ ∀ i, results response !! i
           = (λ c, (detailTask Sample.client i c).1) <$> Sample.candidates !! i.
Proof.
  apply (handleSearch_one_record_per_result Sample.request Sample.client
           Sample.order (lit "lofi") Sample.candidates).
  - reflexivity.
  - reflexivity.
  - intros i c Hi _. apply lookup_lt_Some in Hi. cbn in Hi.
    destruct i as [|[|[|i]]]; [repeat constructor.. | lia].
  - intros i c Hi.
    destruct i as [|[|[|i]]]; [by injection Hi as <-.. | done].
Defined.
(** C5.  A request whose [q] is absent, is not a string, or is a string
    that is empty after trimming (a whitespace-only string is one) is
    answered with status 400 and a body made of an [error] field, and no
    call is made on the client. *)
Theorem C5_invalid_query_is_rejected req client order :
  req_q req = None
  ∨ (∃ items, req_q req = Some (QArr items))
  ∨ (∃ fields, req_q req = Some (QObj fields))
  ∨ (∃ s, req_q req = Some (QStr s) ∧ trim s = [])
  ∨ (∃ s, req_q req = Some (QStr s)
          ∧ Forall (λ c, isWhiteSpace c = true) s) →
  ∃ error,
    handleSearch req client order = (Responded 400 (BadRequestBody error), []).
Proof.
  intros H. eexists. unfold handleSearch.
  enough (validQuery (req_q req) = None) as -> by reflexivity.
  destruct H as [-> | [[items ->] | [[fields ->] | [(s & -> & Hs) | (s & -> & Hs)]]]];
    try done; apply validQuery_trim_nil; [done |].
  by apply trim_nil_iff.
Qed.

Lemma C5_witness :
  ∃ error,
    handleSearch {| req_q := Some (QStr [32; 9; 12288]%N); req_limit := None |}
      Sample.client Sample.order
    = (Responded 400 (BadRequestBody error), []).
Proof.
  apply C5_invalid_query_is_rejected.
  do 4 right. eexists. split; [reflexivity |].
  repeat constructor.
Defined.

(** C6.  When the search resolves with an empty array the response is a
    200 with [results: []], [actual_result_count: 0] and the message
    "No tracks found for this query.", and no lookup is made. *)
Theorem C6_no_candidates req client order q :
  validQuery (req_q req) = Some q →
  search client q (lit "track") (normalizeLimit (req_limit req))
    = SearchResolved (Some []) →
  ∃ response,
    handleSearch req client order
      = (Responded 200 (SearchBody response),
         [CallSearch q (lit "track") (normalizeLimit (req_limit req))])
    ∧ results response = []
    ∧ actual_result_count response = 0%nat
    ∧ message response = Some (lit "No tracks found for this query.").
Proof.
  intros Hq Hs. eexists. split.
  - unfold handleSearch. rewrite Hq, Hs. reflexivity.
  - done.
Qed.

Lemma C6_witness :
  ∃ response,
    handleSearch Sample.request
      {| search := λ _ _ _, SearchResolved (Some []);
         getSongInfo := getSongInfo Sample.client |} []
      = (Responded 200 (SearchBody response),
         [CallSearch (lit "lofi") (lit "track") 3])
    ∧ results response = []
    ∧ actual_result_count response = 0%nat
    ∧ message response = Some (lit "No tracks found for this query.").
Proof.
  apply (C6_no_candidates Sample.request _ [] (lit "lofi")); reflexivity.
Defined.

(** C8.  When the search itself rejects, the response is a 500 whose
    body is the fixed object of the outer [catch]: the strings
    "Internal Server Error" and "An unexpected error occurred while
    processing the SoundCloud search." (and the constant [developer]
    credit).  The response is the same whatever the error was, so
    nothing of the error reaches the body. *)
Theorem C8_search_failure_is_generic req client order q error :
  validQuery (req_q req) = Some q →
  search client q (lit "track") (normalizeLimit (req_limit req))
    = SearchRejected error →
  handleSearch req client order
    = (Responded 500
         (ServerErrorBody
            (lit "Internal Server Error")
            (lit "An unexpected error occurred while processing the SoundCloud search.")
            (lit "Ehsan Fazeli")),
       [CallSearch q (lit "track") (normalizeLimit (req_limit req))])
  ∧ ∀ client' order' error',
      search client' q (lit "track") (normalizeLimit (req_limit req))
        = SearchRejected error' →
      (handleSearch req client' order').1 = (handleSearch req client order).1.
Proof.
  intros Hq Hs. unfold handleSearch. rewrite Hq, Hs. split; [done |].
  intros client' order' error' Hs'. by rewrite Hs'.
Qed.

Lemma C8_witness :
  let failing :=
    {| search := λ _ _ _, SearchRejected (JsError.mk (str "connect ECONNREFUSED"));
       getSongInfo := getSongInfo Sample.client |} in
  handleSearch Sample.request failing []
    = (Responded 500
         (ServerErrorBody
            (lit "Internal Server Error")
            (lit "An unexpected error occurred while processing the SoundCloud search.")
            (lit "Ehsan Fazeli")),
       [CallSearch (lit "lofi") (lit "track") 3])
  ∧ ∀ client' order' error',
      search client' (lit "lofi") (lit "track") 3 = SearchRejected error' →
      (handleSearch Sample.request client' order').1
      = (handleSearch Sample.request failing []).1.
Proof.
  intros failing.
  apply (C8_search_failure_is_generic Sample.request failing []
           (lit "lofi") (JsError.mk (str "connect ECONNREFUSED")));
    reflexivity.
Defined.


(** ** The limit *)

Lemma normalizeLimit_bounds rawLimit : 1 ≤ normalizeLimit rawLimit ≤ 50.
Proof.
  unfold normalizeLimit, DEFAULT_SEARCH_LIMIT, MAX_SEARCH_LIMIT.
  destruct (parseInt10 (paramToString rawLimit)) as [n|]; [| lia].
  destruct (Z.leb_spec n 0); [lia |].
  destruct (Z.gtb_spec n 50); lia.
Qed.

Lemma processedLimit_Some rawLimit :
  limitThrows rawLimit = false →
  processedLimit rawLimit = Some (normalizeLimit rawLimit).
Proof. unfold processedLimit. by intros ->. Qed.

Lemma searchRoute_handled req client order :
  limitThrows (req_limit req) = false →
  searchRoute req client order = Handled (handleSearch req client order).
Proof.
  intros Hl. unfold searchRoute. rewrite (processedLimit_Some _ Hl).
  by destruct (validQuery (req_q req)).
Qed.

(** C4.  A [limit] that cannot be converted to a string is not
    replaced by the default.  [GET /search?q=lofi&limit[toString]=5]
    reaches the handler with [limit] the object [{ toString: '5' }];
    [parseInt] of line 78 throws on it, and line 78 stands before the
    [try]: the handler's promise rejects, no response is sent and the
    search is never called, where a limit that does not parse is meant to
    give the default 10 and a 200.  The validation of [q] a few lines
    above does test the type of its parameter. *)
Theorem C4_limit_object_is_unhandled :
  let req :=
    {| req_q := Some (QStr (lit "lofi"));
       req_limit := Some (QObj [(lit "toString", QStr (lit "5"))]) |} in
  validQuery (req_q req) = Some (lit "lofi")
  ∧ processedLimit (req_limit req) = None
  ∧ ∀ client order, searchRoute req client order = Unhandled.
Proof. by split_and!. Qed.

(** X24.  For a [limit] that converts to a string: the limit the
    handler goes on with is 10 when [limit] is absent, does not parse as
    an integer or parses to an integer at most 0, is 50 when it parses
    above 50, and is the parsed integer otherwise.  A request that is not
    otherwise in error is answered 200 whatever the limit, and the
    response carries the raw parameter as [requested_limit] and the limit
    used as [processed_limit]. *)
Theorem searchRoute_limit_normalization req :
  limitThrows (req_limit req) = false →
  let rawLimit := req_limit req in
  let parsed := parseInt10 (paramToString rawLimit) in
  (rawLimit = None → processedLimit rawLimit = Some 10)
  ∧ (parsed = None → processedLimit rawLimit = Some 10)
  ∧ (∀ n, parsed = Some n → n ≤ 0 → processedLimit rawLimit = Some 10)
  ∧ (∀ n, parsed = Some n → 50 < n → processedLimit rawLimit = Some 50)
  ∧ (∀ n, parsed = Some n → 0 < n ≤ 50 → processedLimit rawLimit = Some n)
  ∧ (∀ client order q candidates limit,
       validQuery (req_q req) = Some q →
       processedLimit rawLimit = Some limit →
       search client q (lit "track") limit
         = SearchResolved (Some candidates) →
       (∀ i c, candidates !! i = Some c → lookupCalls c ≠ [] → i ∈ order) →
       (∀ i c, candidates !! i = Some c → detailRejects client i c = false) →
       ∃ response calls,
         searchRoute req client order
           = Handled (Responded 200 (SearchBody response),
                      CallSearch q (lit "track") limit :: calls)
         ∧ requested_limit response = rawLimit
         ∧ processed_limit response = limit).
Proof.
  intros Hl rawLimit parsed. subst rawLimit parsed.
  rewrite (processedLimit_Some _ Hl). unfold normalizeLimit.
  set (parsed := parseInt10 (paramToString (req_limit req))).
  split_and!.
  - intros H. subst parsed. by rewrite H.
  - by intros ->.
  - intros n -> Hn. by rewrite (proj2 (Z.leb_le n 0)).
  - intros n -> Hn. rewrite (proj2 (Z.leb_gt n 0)) by lia.
    unfold MAX_SEARCH_LIMIT. by rewrite (proj2 (Z.gtb_gt n 50)) by lia.
  - intros n -> Hn. rewrite (proj2 (Z.leb_gt n 0)) by lia.
    unfold MAX_SEARCH_LIMIT.
    destruct (Z.gtb_spec n 50); [lia | done].
  - intros client order q candidates limit Hq [= <-] Hs Hall Hok.
    rewrite (searchRoute_handled _ _ _ Hl). eexists _, _. split.
    + f_equal. by apply handleSearch_resolved.
    + done.
Qed.

Lemma searchRoute_limit_normalization_witness :
  let req := {| req_q := Some (QStr (lit "lofi"));
                req_limit := Some (QStr (lit "60")) |} in
  processedLimit (req_limit req) = Some 50
  ∧ ∃ response calls,
      searchRoute req Sample.client Sample.order
        = Handled (Responded 200 (SearchBody response),
                   CallSearch (lit "lofi") (lit "track") 50 :: calls)
      ∧ requested_limit response = Some (QStr (lit "60"))
      ∧ processed_limit response = 50.
Proof.
  intros req.
  destruct (searchRoute_limit_normalization req eq_refl)
    as (_ & _ & _ & Hclamp & _ & Hok).
  split.
  - apply (Hclamp 60); [reflexivity | lia].
  - apply (Hok Sample.client Sample.order (lit "lofi") Sample.candidates).
    + reflexivity.
    + reflexivity.
    + reflexivity.
    + intros i c Hi _. apply lookup_lt_Some in Hi. cbn in Hi.
      destruct i as [|[|[|i]]]; [repeat constructor.. | lia].
    + intros i c Hi.
      destruct i as [|[|[|i]]]; [by injection Hi as <-.. | done].
Defined.
(** ** Parsing the limit *)

Lemma isDigit_range c : isDigit c = true ↔ (48 ≤ c ≤ 57)%N.
Proof.
  unfold isDigit. rewrite andb_true_iff, !N.leb_le. done.
Qed.

Lemma digit_not_whitespace c : isDigit c = true → isWhiteSpace c = false.
Proof.
  intros [H1 H2]%isDigit_range. unfold isWhiteSpace.
  rewrite (proj2 (N.leb_gt c 13)) by lia.
  rewrite !(proj2 (N.eqb_neq c _)) by lia.
  rewrite (proj2 (N.leb_gt 8192 c)) by lia.
  by rewrite andb_false_r.
Qed.

Lemma splitSign_digit c r : isDigit c = true → splitSign (c :: r) = (1, c :: r).
Proof.
  intros [H1 H2]%isDigit_range. unfold splitSign.
  by rewrite !(proj2 (N.eqb_neq c _)) by lia.
Qed.

Lemma leadingDigits_app ds rest :
  Forall (λ c, isDigit c = true) ds →
  match rest with c :: _ => isDigit c = false | [] => True end →
  leadingDigits (ds ++ rest) = ds.
Proof.
  intros Hds Hrest. induction Hds as [|c ds Hc _ IH]; simpl.
  - destruct rest as [|c r]; [done |]. simpl. by rewrite Hrest.
  - by rewrite Hc, IH.
Qed.

Lemma parseInt10_digits_prefix ds rest :
  ds ≠ [] →
  Forall (λ c, isDigit c = true) ds →
  match rest with c :: _ => isDigit c = false | [] => True end →
  parseInt10 (ds ++ rest) = Some (decimalValue ds).
Proof.
  intros Hne Hds Hrest. unfold parseInt10.
  destruct ds as [|c ds]; [done |]. clear Hne.
  assert (isDigit c = true) as Hc by (by inversion Hds).
  change ((c :: ds) ++ rest) with (c :: (ds ++ rest)).
  replace (trimStart (c :: ds ++ rest)) with (c :: ds ++ rest)
    by (simpl; by rewrite (digit_not_whitespace c Hc)).
  rewrite splitSign_digit by done.
  change (c :: ds ++ rest) with ((c :: ds) ++ rest).
  rewrite leadingDigits_app by done.
  by rewrite Z.mul_1_l.
Qed.

(** C10.  A limit made of decimal digits followed by something that is
    not a digit is read as the number its digits spell: [parseInt]
    yields that number and the handler goes on exactly as for the digits
    alone (so ["25abc"] is processed as 25), instead of falling back to
    the default.  [parseInt] yields [NaN] only for a string that, after
    leading whitespace and an optional sign, starts with no digit. *)
Theorem C10_numeric_prefix_is_used ds rest :
  ds ≠ [] →
  Forall (λ c, isDigit c = true) ds →
  match rest with c :: _ => isDigit c = false | [] => True end →
  parseInt10 (ds ++ rest) = Some (decimalValue ds)
  ∧ normalizeLimit (Some (QStr (ds ++ rest))) = normalizeLimit (Some (QStr ds))
  ∧ (0 < decimalValue ds ≤ 50 →
     normalizeLimit (Some (QStr (ds ++ rest))) = decimalValue ds)
  ∧ (∀ q client order,
       processed_limit <$>
         searchResponse
           (handleSearch {| req_q := q; req_limit := Some (QStr (ds ++ rest)) |}
              client order).1
       = processed_limit <$>
           searchResponse
             (handleSearch {| req_q := q; req_limit := Some (QStr ds) |}
                client order).1)
  ∧ (∀ s, parseInt10 s = None
          ↔ leadingDigits (splitSign (trimStart s)).2 = []).
Proof.
  intros Hne Hds Hrest.
  pose proof (parseInt10_digits_prefix ds rest Hne Hds Hrest) as Hp.
  pose proof (parseInt10_digits_prefix ds [] Hne Hds I) as Hp0.
  rewrite app_nil_r in Hp0.
  assert (normalizeLimit (Some (QStr (ds ++ rest)))
          = normalizeLimit (Some (QStr ds))) as Hn.
  { unfold normalizeLimit. cbn [paramToString qToString]. by rewrite Hp, Hp0. }
  split_and!; [done | done | | |].
  - intros Hr. unfold normalizeLimit. cbn [paramToString qToString].
    rewrite Hp. rewrite (proj2 (Z.leb_gt _ 0)) by lia.
    unfold MAX_SEARCH_LIMIT. destruct (Z.gtb_spec (decimalValue ds) 50); [lia | done].
  - intros q client order. unfold handleSearch. cbn [req_q req_limit].
    rewrite Hn. destruct (validQuery q) as [query|]; [| done].
    destruct (search client query (lit "track") _) as [[[|c cs]|]|]; try done.
    by destruct (Promise_all _ order).
  - intros s. unfold parseInt10.
    destruct (splitSign (trimStart s)) as [sign body]. cbn [snd].
    by destruct (leadingDigits body).
Qed.

Lemma C10_witness :
  parseInt10 (lit "25abc") = Some 25
  ∧ normalizeLimit (Some (QStr (lit "25abc"))) = 25
  ∧ processed_limit <$>
      searchResponse
        (handleSearch {| req_q := Some (QStr (lit "lofi"));
                         req_limit := Some (QStr (lit "25abc")) |}
           Sample.client Sample.order).1
    = Some 25.
Proof.
  destruct (C10_numeric_prefix_is_used (lit "25") (lit "abc"))
    as (Hp & _ & Hn & Hh & _).
  - discriminate.
  - repeat constructor.
  - reflexivity.
  - split_and!.
    + exact Hp.
    + apply Hn. cbv. split; [reflexivity | discriminate].
    + etrans;
        [exact (Hh (Some (QStr (lit "lofi"))) Sample.client Sample.order)
        | reflexivity].
Defined.

(** ** Numbers *)

Lemma digits2_pos_size p : digits2_pos p = Pos.size p.
Proof. induction p as [p IH|p IH|]; cbn; by rewrite ?IH. Qed.

Lemma Zdigits2_log2 z : 0 < z → Zdigits2 z = Z.log2 z + 1.
Proof.
  destruct z as [|p|p]; try lia. intros _. cbn [Zdigits2].
  rewrite digits2_pos_size. destruct p as [p|p|]; cbn; lia.
Qed.

Lemma Zdigits2_nonneg z : 0 ≤ Zdigits2 z.
Proof. destruct z; cbn; lia. Qed.

(** A number below [2^k] has at most [k] binary digits. *)
Lemma Zdigits2_le z k : 0 ≤ z → 0 ≤ k → z < 2 ^ k → Zdigits2 z ≤ k.
Proof.
  intros Hz Hk Hlt. destruct (Z.eq_dec z 0) as [->|Hne]; [done |].
  rewrite Zdigits2_log2 by lia.
  assert (Z.log2 z < k); [| lia]. apply Z.log2_lt_pow2; lia.
Qed.

Lemma Zdigits2_gt z : 0 ≤ z → z < 2 ^ Zdigits2 z.
Proof.
  intros Hz. destruct (Z.eq_dec z 0) as [->|Hne]; [done |].
  rewrite Zdigits2_log2 by lia.
  pose proof (Z.log2_spec z). replace (Z.log2 z + 1) with (Z.succ (Z.log2 z)) by lia.
  lia.
Qed.

Lemma Zdigits2_ge z : 0 < z → 2 ^ (Zdigits2 z - 1) ≤ z.
Proof.
  intros Hz. rewrite Zdigits2_log2 by lia.
  replace (Z.log2 z + 1 - 1) with (Z.log2 z) by lia.
  apply Z.log2_spec. lia.
Qed.

Lemma Zdigits2_succ z : 0 ≤ z → Zdigits2 (z + 1) ≤ Zdigits2 z + 1.
Proof.
  intros Hz. pose proof (Zdigits2_nonneg z). apply Zdigits2_le; [lia.. |].
  pose proof (Zdigits2_gt z Hz). rewrite Z.pow_add_r by lia. lia.
Qed.

(** Halving [n] times leaves [n] digits fewer. *)
Lemma Zdigits2_div_pow2 z n :
  0 ≤ z → 0 ≤ n → Zdigits2 (z / 2 ^ n) ≤ Z.max 0 (Zdigits2 z - n).
Proof.
  intros Hz Hn. pose proof (Zdigits2_gt z Hz) as Hlt.
  pose proof (Zdigits2_nonneg z) as Hd.
  assert (0 < 2 ^ n) by (apply Z.pow_pos_nonneg; lia).
  destruct (Z.le_gt_cases (Zdigits2 z) n) as [Hle|Hgt].
  - assert (z / 2 ^ n = 0) as ->; [| cbn; lia].
    apply Z.div_small. split; [done |].
    eapply Z.lt_le_trans; [exact Hlt |]. apply Z.pow_le_mono_r; lia.
  - apply Zdigits2_le; [apply Z.div_pos; lia | lia |].
    rewrite Z.max_r by lia. apply Z.div_lt_upper_bound; [lia |].
    rewrite <- Z.pow_add_r by lia. by replace (n + (Zdigits2 z - n)) with (Zdigits2 z) by lia.
Qed.

(** The mantissa of a shift record is halved by [shr_1]. *)
Lemma shr_1_m mrs : 0 ≤ shr_m mrs → shr_m (shr_1 mrs) = shr_m mrs / 2.
Proof.
  destruct mrs as [m r s]. cbn [shr_m shr_1]. intros Hm.
  destruct m as [|[p|p|]|p]; cbn [shr_m];
    first [ done | lia
          | apply (Z.div_unique _ 2 _ 1); lia
          | apply (Z.div_unique _ 2 _ 0); lia ].
Qed.

Lemma iter_shr_1_m n mrs :
  0 ≤ shr_m mrs → shr_m (SpecFloat.iter_pos shr_1 n mrs) = shr_m mrs / 2 ^ Z.pos n.
Proof.
  assert (∀ m a b, 0 ≤ a → 0 ≤ b → m / 2 ^ a / 2 ^ b = m / 2 ^ (a + b)) as Hdd.
  { intros m a b Ha Hb. rewrite Z.pow_add_r by done.
    assert (0 < 2 ^ a) by (apply Z.pow_pos_nonneg; lia).
    assert (0 < 2 ^ b) by (apply Z.pow_pos_nonneg; lia).
    apply Z.div_div; lia. }
  revert mrs. induction n as [n IH|n IH|]; intros mrs Hm;
    cbn [SpecFloat.iter_pos].
  - assert (0 ≤ shr_m (shr_1 mrs))
      by (rewrite shr_1_m by done; apply Z.div_pos; lia).
    assert (0 ≤ shr_m (SpecFloat.iter_pos shr_1 n (shr_1 mrs)))
      by (rewrite IH by done; apply Z.div_pos; [lia |];
          apply Z.pow_pos_nonneg; lia).
    rewrite !IH, shr_1_m by done.
    change 2 with (2 ^ 1) at 1. rewrite !Hdd by lia. f_equal. f_equal. lia.
  - assert (0 ≤ shr_m (SpecFloat.iter_pos shr_1 n mrs))
      by (rewrite IH by done; apply Z.div_pos; [lia |];
          apply Z.pow_pos_nonneg; lia).
    rewrite !IH by done. rewrite Hdd by lia. f_equal. f_equal. lia.
  - rewrite shr_1_m by done. done.
Qed.

Lemma shr_record_of_loc_m m l : shr_m (shr_record_of_loc m l) = m.
Proof. by destruct l as [|[]]. Qed.

(** [shr_fexp] on a mantissa that is not negative: the mantissa stays
    so, loses the digits shifted out, and the exponent becomes the larger
    of the old one and the one the format asks for. *)
Lemma shr_fexp_spec m e l :
  0 ≤ m →
  let '(mrs, e') := shr_fexp prec emax m e l in
  0 ≤ shr_m mrs ≤ m
  ∧ e' = Z.max e (fexp prec emax (Zdigits2 m + e))
  ∧ Zdigits2 (shr_m mrs) + e' ≤ Z.max e' (Zdigits2 m + e).
Proof.
  intros Hm. unfold shr_fexp, shr.
  set (n := fexp prec emax (Zdigits2 m + e) - e).
  destruct n as [|p|p] eqn:Hn; rewrite ?shr_record_of_loc_m.
  - split_and!; [lia | lia | lia | lia].
  - rewrite iter_shr_1_m by (by rewrite shr_record_of_loc_m).
    rewrite shr_record_of_loc_m.
    assert (0 < 2 ^ Z.pos p) by (apply Z.pow_pos_nonneg; lia).
    pose proof (Zdigits2_div_pow2 m (Z.pos p) Hm ltac:(lia)).
    split_and!.
    + apply Z.div_pos; lia.
    + apply Z.div_le_upper_bound; [lia |]. nia.
    + lia.
    + lia.
  - split_and!; lia.
Qed.

Lemma round_nearest_even_bounds m l :
  0 ≤ m → m ≤ round_nearest_even m l ≤ m + 1.
Proof.
  intros Hm. destruct l as [|[]]; cbn; try lia. destruct (Z.even m); lia.
Qed.

(** Rounding a mantissa that is not negative gives a zero, a finite
    number or an infinity of the sign asked for, and no infinity while
    the digits stay within the format. *)
Lemma binary_round_aux_spec s m e l :
  0 ≤ m →
  (∃ m' e', binary_round_aux prec emax s m e l = S754_finite s m' e')
  ∨ binary_round_aux prec emax s m e l = S754_zero s
  ∨ (binary_round_aux prec emax s m e l = S754_infinity s
     ∧ ¬ (e ≤ emax - prec ∧ Zdigits2 m + e + 1 ≤ emax)).
Proof.
  intros Hm. unfold binary_round_aux.
  pose proof (shr_fexp_spec m e l Hm) as H1.
  destruct (shr_fexp prec emax m e l) as [mrs' e'].
  destruct H1 as ([Hm1 Hm1'] & He' & Hd1).
  pose proof (round_nearest_even_bounds (shr_m mrs') (loc_of_shr_record mrs') Hm1)
    as Hr.
  set (mr := round_nearest_even (shr_m mrs') (loc_of_shr_record mrs')) in *.
  pose proof (shr_fexp_spec mr e' loc_Exact ltac:(lia)) as H2.
  destruct (shr_fexp prec emax mr e' loc_Exact) as [mrs'' e''].
  destruct H2 as ([Hm2 Hm2'] & He'' & Hd2).
  destruct (shr_m mrs'') as [|p|p] eqn:Hp; [by right; left | | lia].
  destruct (Z.leb_spec e'' (emax - prec)) as [Hle|Hgt]; [left; by eexists _, _ |].
  right; right. split; [done |]. intros [Hb1 Hb2].
  assert (Zdigits2 mr ≤ Zdigits2 (shr_m mrs') + 1) as Hdr.
  { destruct (Z.eq_dec mr (shr_m mrs')) as [->|]; [lia |].
    replace mr with (shr_m mrs' + 1) by lia. by apply Zdigits2_succ. }
  unfold fexp, emin, prec, emax in *. lia.
Qed.


(** The divisor of [floorDiv1000]. *)
Lemma ofZ_1000 : ofZ 1000 = S754_finite false 8796093022208000 (-43).
Proof. reflexivity. Qed.

Lemma Math_floor_finite_nonneg m e :
  ∃ n, Math_floor (S754_finite false m e) = Fin n ∧ 0 ≤ n.
Proof.
  cbn [Math_floor]. eexists. split; [done |].
  destruct (Z.leb_spec 0 e) as [He|He].
  - apply Z.mul_nonneg_nonneg; [lia | apply Z.pow_nonneg; lia].
  - apply Z.div_pos; [lia | apply Z.pow_pos_nonneg; lia].
Qed.

(** What [valid_binary] says of a finite double: the exponent and the
    magnitude are those of the format. *)
Lemma valid_binary_bounds s m e :
  valid_binary prec emax (S754_finite s m e) = true →
  e ≤ emax - prec ∧ Zdigits2 (Z.pos m) + e ≤ emax.
Proof.
  cbn [valid_binary]. unfold bounded, canonical_mantissa.
  intros [H1 H2]%andb_prop. apply Z.eqb_eq in H1. apply Z.leb_le in H2.
  cbn [Zdigits2]. unfold fexp, emin, prec, emax in *. lia.
Qed.

(** A positive double over 1000 is a zero or a positive finite double:
    the quotient cannot overflow. *)
Lemma js_div_1000_finite m e :
  valid_binary prec emax (S754_finite false m e) = true →
  js_div (S754_finite false m e) (ofZ 1000) = S754_zero false
  ∨ ∃ m' e', js_div (S754_finite false m e) (ofZ 1000) = S754_finite false m' e'.
Proof.
  intros Hv. destruct (valid_binary_bounds _ _ _ Hv) as [He Hd].
  unfold js_div. rewrite ofZ_1000. cbn [SFdiv xorb].
  unfold SFdiv_core_binary.
  change (Zdigits2 (Z.pos 8796093022208000)) with 53.
  set (d1 := Zdigits2 (Z.pos m)) in *.
  set (e' := Z.min (fexp prec emax (d1 + e - (53 + -43))) (e - -43)).
  set (s := e - -43 - e').
  assert (0 ≤ s) as Hs by (unfold s, e'; lia).
  assert (0 < d1) as Hd1 by done.
  set (m1 := match s with
             | 0 => Z.pos m
             | Z.pos _ => Z.shiftl (Z.pos m) s
             | Z.neg _ => 0
             end).
  assert (m1 = Z.pos m * 2 ^ s) as Hm1.
  { unfold m1. destruct s as [|p|p] eqn:Hp; [lia | | lia].
    by rewrite Z.shiftl_mul_pow2. }
  assert (0 < 2 ^ s) as Hpow by (apply Z.pow_pos_nonneg; lia).
  pose proof (Z.div_eucl_eq m1 8796093022208000 ltac:(done)) as Hdiv.
  pose proof (Z.mod_pos_bound m1 8796093022208000 ltac:(done)) as Hmod.
  unfold Z.modulo in Hmod.
  destruct (Z.div_eucl m1 8796093022208000) as [q r].
  assert (0 ≤ q) as Hq by nia.
  destruct (binary_round_aux_spec false q e'
              (new_location 8796093022208000 r) Hq)
    as [(m' & e'' & ->) | [-> | [_ Hno]]]; [by right; eexists _, _ | by left |].
  destruct Hno. unfold e' at 1. split.
  { unfold fexp, emin, prec, emax in *. lia. }
  assert (Zdigits2 q ≤ Z.max 0 (d1 + s - 52)) as Hdq.
  { apply Zdigits2_le; [done | lia |].
    pose proof (Zdigits2_gt (Z.pos m) ltac:(done)) as Hlt. fold d1 in Hlt.
    assert (q * 2 ^ 52 < 2 ^ d1 * 2 ^ s) as Hlt' by nia.
    rewrite <- Z.pow_add_r in Hlt' by lia.
    destruct (Z.le_gt_cases 52 (d1 + s)) as [Hge|Hlt2].
    - rewrite Z.max_r by lia.
      replace (d1 + s) with (52 + (d1 + s - 52)) in Hlt' by lia.
      rewrite Z.pow_add_r in Hlt' by lia. lia.
    - rewrite Z.max_l by lia.
      assert (2 ^ (d1 + s) ≤ 2 ^ 52) by (apply Z.pow_le_mono_r; lia).
      change (2 ^ 0) with 1. lia. }
  unfold s in Hdq. unfold e', fexp, emin, prec, emax in *. lia.
Qed.

(** The floor of a double that is not negative, over 1000. *)
Lemma floorDiv1000_nonneg m e :
  valid_binary prec emax (S754_finite false m e) = true →
  ∃ n, floorDiv1000 (S754_finite false m e) = Fin n ∧ 0 ≤ n.
Proof.
  intros Hv. unfold floorDiv1000.
  destruct (js_div_1000_finite m e Hv) as [-> | (m' & e' & ->)].
  - by exists 0.
  - apply Math_floor_finite_nonneg.
Qed.

Lemma floorDiv1000_infinity : floorDiv1000 (S754_infinity false) = PosInf.
Proof. reflexivity. Qed.

(** *** The digits dropped by a shift *)

Lemma shr_1_frac mrs a b :
  0 ≤ shr_m mrs → shr_frac mrs a b →
  shr_frac (shr_1 mrs) (shr_m mrs mod 2 * b + a) (2 * b)
  ∧ shr_m (shr_1 mrs) = shr_m mrs / 2.
Proof.
  intros Hm (Hab & Hr & Hs). split; [| by apply shr_1_m].
  assert (shr_r (shr_1 mrs) = Z.odd (shr_m mrs)) as Hr'.
  { destruct mrs as [[|[p|p|]|p] r s]; cbn [shr_m] in Hm; [done.. | lia]. }
  assert (shr_s (shr_1 mrs) = orb (shr_r mrs) (shr_s mrs)) as Hs'.
  { by destruct mrs as [[|[p|p|]|[p|p|]] r s]. }
  unfold shr_frac. rewrite Hr', Hs', orb_true_iff, Hr, Hs, Zmod_odd.
  destruct (Z.odd (shr_m mrs)); split_and!; try lia.
  all: split; [lia || done | try lia].
Qed.

(** One shift keeps the number the record stands for. *)
Lemma shr_1_value mrs a b :
  0 ≤ shr_m mrs → shr_frac mrs a b →
  ∃ a', shr_frac (shr_1 mrs) a' (2 * b)
        ∧ 0 ≤ shr_m (shr_1 mrs)
        ∧ shr_m (shr_1 mrs) * (2 * b) + a' = shr_m mrs * b + a.
Proof.
  intros Hm Hf. destruct (shr_1_frac mrs a b Hm Hf) as [Hf' ->].
  eexists. split; [exact Hf' |].
  pose proof (Z.div_mod (shr_m mrs) 2 ltac:(done)) as Hdm.
  split; [apply Z.div_pos; lia |].
  rewrite Hdm at 3. ring.
Qed.

Lemma iter_shr_1_frac n mrs a b :
  0 ≤ shr_m mrs → shr_frac mrs a b →
  ∃ a', shr_frac (SpecFloat.iter_pos shr_1 n mrs) a' (2 ^ Z.pos n * b)
        ∧ shr_m (SpecFloat.iter_pos shr_1 n mrs) * (2 ^ Z.pos n * b) + a'
          = shr_m mrs * b + a.
Proof.
  assert (∀ n mrs, 0 ≤ shr_m mrs →
            0 ≤ shr_m (SpecFloat.iter_pos shr_1 n mrs)) as Hpos.
  { intros k r Hr. rewrite iter_shr_1_m by done.
    apply Z.div_pos; [lia | apply Z.pow_pos_nonneg; lia]. }
  revert mrs a b.
  induction n as [n IH|n IH|]; intros mrs a b Hm Hf;
    cbn [SpecFloat.iter_pos].
  - destruct (shr_1_value mrs a b Hm Hf) as (a1 & Hf1 & Hm1 & He1).
    destruct (IH _ _ _ Hm1 Hf1) as (a2 & Hf2 & He2).
    destruct (IH _ _ _ (Hpos n _ Hm1) Hf2) as (a3 & Hf3 & He3).
    exists a3.
    replace (2 ^ Z.pos n~1 * b) with (2 ^ Z.pos n * (2 ^ Z.pos n * (2 * b))).
    + split; [done | congruence].
    + replace (Z.pos n~1) with (Z.pos n + Z.pos n + 1) by lia.
      rewrite !Z.pow_add_r by lia. change (2 ^ 1) with 2. ring.
  - destruct (IH _ _ _ Hm Hf) as (a2 & Hf2 & He2).
    destruct (IH _ _ _ (Hpos n _ Hm) Hf2) as (a3 & Hf3 & He3).
    exists a3.
    replace (2 ^ Z.pos n~0 * b) with (2 ^ Z.pos n * (2 ^ Z.pos n * b)).
    + split; [done | congruence].
    + replace (Z.pos n~0) with (Z.pos n + Z.pos n) by lia.
      rewrite Z.pow_add_r by lia. ring.
  - destruct (shr_1_value mrs a b Hm Hf) as (a1 & Hf1 & Hm1 & He1).
    exists a1. change (2 ^ 1) with 2. done.
Qed.

(** The location the division hands to the rounding, as a shift
    record: the fraction dropped is [r / d]. *)
Lemma new_location_frac q d r :
  Z.even d = true → 0 ≤ r < d →
  shr_frac (shr_record_of_loc q (new_location d r)) r d.
Proof.
  intros Hd Hr. unfold new_location, new_location_even. rewrite Hd.
  unfold shr_frac.
  destruct (Z.eqb_spec r 0) as [->|Hne]; cbn [shr_record_of_loc shr_r shr_s].
  { repeat split; first [done | lia]. }
  destruct (Z.compare_spec (2 * r) d); cbn [shr_record_of_loc shr_r shr_s];
    repeat split; first [done | lia].
Qed.

(** Rounding to nearest moves up by one at most, and only from a half
    on. *)
Lemma round_nearest_even_cases mrs :
  round_nearest_even (shr_m mrs) (loc_of_shr_record mrs) = shr_m mrs
  ∨ round_nearest_even (shr_m mrs) (loc_of_shr_record mrs) = shr_m mrs + 1
    ∧ shr_r mrs = true.
Proof.
  destruct mrs as [m [] []]; cbn; try (by left); try (by right).
  destruct (Z.even m); [by left | by right].
Qed.

(** [shr_fexp] keeps the number its argument stands for: the record it
    returns reads against the fraction dropped, over the denominator
    scaled by the shift. *)
Lemma shr_fexp_frac m e l a b :
  0 ≤ m → shr_frac (shr_record_of_loc m l) a b →
  ∃ a', shr_frac (shr_fexp prec emax m e l).1 a'
          (2 ^ ((shr_fexp prec emax m e l).2 - e) * b)
        ∧ (shr_m (shr_fexp prec emax m e l).1
             * (2 ^ ((shr_fexp prec emax m e l).2 - e) * b) + a'
           = m * b + a).
Proof.
  intros Hm Hf. unfold shr_fexp, shr.
  destruct (fexp prec emax (Zdigits2 m + e) - e) as [|p|p] eqn:Hn;
    cbn [fst snd].
  - exists a. rewrite Z.sub_diag, Z.mul_1_l, shr_record_of_loc_m. done.
  - destruct (iter_shr_1_frac p _ a b
                ltac:(by rewrite shr_record_of_loc_m) Hf) as (a' & Hf' & He).
    exists a'. replace (e + Z.pos p - e) with (Z.pos p) by lia.
    rewrite shr_record_of_loc_m in He. done.
  - exists a. rewrite Z.sub_diag, Z.mul_1_l, shr_record_of_loc_m. done.
Qed.

(** The quotient and the remainder [SFdiv] passes to the rounding, for
    the divisor 1000. *)
Lemma SFdiv_core_1000 m e :
  let d := 8796093022208000 in
  let e0 := Z.min (fexp prec emax (Zdigits2 (Z.pos m) + e - 10)) (e + 43) in
  ∃ q r,
    SFdiv_core_binary prec emax (Z.pos m) e d (-43)
    = (q, e0, new_location d r)
    ∧ 0 ≤ q ∧ 0 ≤ r < d
    ∧ q * d + r = Z.pos m * 2 ^ (e + 43 - e0)
    ∧ Zdigits2 q ≤ Z.max 0 (Zdigits2 (Z.pos m) + e - 9 - e0).
Proof.
  intros d e0. unfold SFdiv_core_binary. fold d.
  change (Zdigits2 d) with 53.
  replace (Zdigits2 (Z.pos m) + e - (53 + -43))
    with (Zdigits2 (Z.pos m) + e - 10) by lia.
  replace (e - -43) with (e + 43) by lia. fold e0.
  set (d1 := Zdigits2 (Z.pos m)) in *.
  set (s := e + 43 - e0).
  assert (0 ≤ s) as Hs by (unfold s, e0; lia).
  assert (0 < d1) as Hd1 by done.
  set (m1 := match s with
             | 0 => Z.pos m
             | Z.pos _ => Z.shiftl (Z.pos m) s
             | Z.neg _ => 0
             end).
  assert (m1 = Z.pos m * 2 ^ s) as Hm1.
  { unfold m1. destruct s as [|p|p] eqn:Hp; [lia | | lia].
    by rewrite Z.shiftl_mul_pow2. }
  assert (0 < 2 ^ s) as Hpow by (apply Z.pow_pos_nonneg; lia).
  pose proof (Z.div_eucl_eq m1 d ltac:(done)) as Hdiv.
  pose proof (Z.mod_pos_bound m1 d ltac:(done)) as Hmod.
  unfold Z.modulo in Hmod.
  destruct (Z.div_eucl m1 d) as [q r].
  assert (0 ≤ q) as Hq by (unfold d in *; nia).
  exists q, r. split_and!; [done | done | lia | lia | lia |].
  apply Zdigits2_le; [done | lia |].
  pose proof (Zdigits2_gt (Z.pos m) ltac:(done)) as Hlt. fold d1 in Hlt.
  assert (q * 2 ^ 52 < 2 ^ d1 * 2 ^ s) as Hlt' by (unfold d in *; nia).
  rewrite <- Z.pow_add_r in Hlt' by lia.
  replace (d1 + e - 9 - e0) with (d1 + s - 52) by (unfold s; lia).
  destruct (Z.le_gt_cases 52 (d1 + s)) as [Hge|Hlt2].
  - rewrite Z.max_r by lia.
    replace (d1 + s) with (52 + (d1 + s - 52)) in Hlt' by lia.
    rewrite Z.pow_add_r in Hlt' by lia. lia.
  - rewrite Z.max_l by lia.
    assert (2 ^ (d1 + s) ≤ 2 ^ 52) by (apply Z.pow_le_mono_r; lia).
    change (2 ^ 0) with 1. lia.
Qed.

(** The arithmetic of the last step: a quotient [d / 1000] held as
    [m' + a / b] in units of [1 / p], [p] at least 512, floors to the
    same integer after rounding to nearest. *)
Lemma floor_after_rounding d k p b m' a mr :
  0 < k → 512 ≤ p → 0 < b → p * b = 1000 * k →
  m' * b + a = d * k → 0 ≤ a < b →
  mr = m' ∨ mr = m' + 1 ∧ b ≤ 2 * a →
  mr / p = d / 1000.
Proof.
  intros Hk Hp Hb Hpb HN Ha Hmr.
  pose proof (Z.div_mod d 1000 ltac:(done)) as Hd.
  pose proof (Z.mod_pos_bound d 1000 ltac:(done)) as Hd'.
  set (n := d / 1000) in *. set (t := d mod 1000) in *.
  assert (p * n ≤ m') as Hlo.
  { apply Z.lt_succ_r. apply (Z.mul_lt_mono_pos_r b); [done |].
    replace (p * n * b) with (1000 * k * n) by (rewrite <- Hpb; ring).
    nia. }
  assert (m' < p * (n + 1)) as Hhi.
  { apply (Z.mul_lt_mono_pos_r b); [done |].
    replace (p * (n + 1) * b) with (1000 * k * (n + 1)) by (rewrite <- Hpb; ring).
    nia. }
  symmetry. apply (Z.div_unique _ _ _ (mr - p * n)); [| ring].
  left. destruct Hmr as [-> | [-> Hhalf]]; [lia |].
  split; [lia |].
  destruct (Z.eq_dec (m' + 1) (p * (n + 1))) as [Heq|]; [| lia].
  exfalso.
  assert (2 * k ≤ b) as H2k.
  { assert ((2 * m' + 1) * b ≤ 2 * (n + 1) * (p * b) - 2 * k) as H
      by (rewrite Hpb; nia).
    replace (2 * m' + 1) with (2 * (n + 1) * p - 1) in H by lia. nia. }
  nia.
Qed.

(** [Math.floor(x / 1000)] of a double that holds the integer [d], an
    integer of at most 53 binary digits: the division rounds, and the
    floor of the rounded quotient is still the floor of [d / 1000]. *)
Lemma floorDiv1000_integer m e d :
  e ≤ 0 → Z.pos m = d * 2 ^ (- e) → Zdigits2 (Z.pos m) + e ≤ 53 →
  floorDiv1000 (S754_finite false m e) = Fin (d / 1000).
Proof.
  intros He Hmd Hdig.
  unfold floorDiv1000, js_div. rewrite ofZ_1000. cbn [SFdiv xorb].
  destruct (SFdiv_core_1000 m e) as (q & r & -> & Hq & Hr & Hqr & Hdq).
  set (D := 8796093022208000) in *.
  set (e0 := Z.min (fexp prec emax (Zdigits2 (Z.pos m) + e - 10)) (e + 43)) in *.
  assert (e0 ≤ -10) as He0 by (unfold e0, fexp, emin, prec, emax; lia).
  unfold binary_round_aux.
  pose proof (shr_fexp_spec q e0 (new_location D r) Hq) as H1.
  destruct (shr_fexp_frac q e0 (new_location D r) r D Hq
              (new_location_frac q D r eq_refl Hr)) as (a1 & Hf1 & Hv1).
  destruct (shr_fexp prec emax q e0 (new_location D r)) as [mrs1 e1].
  cbn [fst snd] in Hf1, Hv1. destruct H1 as ([Hm1 _] & He1 & Hd1).
  assert (e0 ≤ e1 ≤ -9) as He1'
    by (unfold fexp, emin, prec, emax in *; lia).
  pose proof (round_nearest_even_cases mrs1) as Hmr.
  set (mr := round_nearest_even (shr_m mrs1) (loc_of_shr_record mrs1)) in *.
  assert (0 ≤ mr) as Hmr0 by lia.
  assert (Zdigits2 mr ≤ Zdigits2 (shr_m mrs1) + 1) as Hdr.
  { destruct Hmr as [-> | [-> _]]; [lia | by apply Zdigits2_succ]. }
  pose proof (shr_fexp_spec mr e1 loc_Exact Hmr0) as H2.
  destruct (shr_fexp_frac mr e1 loc_Exact 0 1 Hmr0) as (a2 & Hf2 & Hv2).
  { repeat split; first [done | lia]. }
  destruct (shr_fexp prec emax mr e1 loc_Exact) as [mrs2 e2].
  cbn [fst snd] in Hf2, Hv2. destruct H2 as ([Hm2 _] & He2 & Hd2).
  assert (e1 ≤ e2 ≤ 0) as He2'
    by (unfold fexp, emin, prec, emax in *; lia).
  enough (shr_m mrs2 / 2 ^ (- e2) = d / 1000) as <-.
  { destruct (shr_m mrs2) as [|p|p] eqn:Hp; [by rewrite Z.div_0_l by lia | | lia].
    rewrite (proj2 (Z.leb_le e2 (emax - prec))) by (unfold emax, prec; lia).
    cbn [Math_floor]. destruct (Z.leb_spec 0 e2) as [H0|H0]; [| done].
    replace e2 with 0 by lia. change (- 0) with 0.
    by rewrite Z.pow_0_r, Z.div_1_r, Z.mul_1_r. }
  assert (0 < 2 ^ (e2 - e1)) as Hp21 by (apply Z.pow_pos_nonneg; lia).
  assert (0 < 2 ^ (- e2)) as Hp2 by (apply Z.pow_pos_nonneg; lia).
  destruct Hf2 as (Ha2 & _ & _).
  assert (shr_m mrs2 = mr / 2 ^ (e2 - e1)) as ->.
  { apply (Z.div_unique _ _ _ a2); [left; lia | lia]. }
  rewrite Z.div_div by lia. rewrite <- Z.pow_add_r by lia.
  replace (e2 - e1 + - e2) with (- e1) by lia.
  destruct Hf1 as (Ha1 & Hr1 & _).
  apply (floor_after_rounding d (2 ^ (43 - e0)) (2 ^ (- e1))
           (2 ^ (e1 - e0) * D) (shr_m mrs1) a1 mr).
  - apply Z.pow_pos_nonneg; lia.
  - change 512 with (2 ^ 9). apply Z.pow_le_mono_r; lia.
  - apply Z.mul_pos_pos; [apply Z.pow_pos_nonneg; lia | done].
  - rewrite Z.mul_assoc, <- Z.pow_add_r by lia.
    replace (- e1 + (e1 - e0)) with (- e0) by lia.
    replace (43 - e0) with (43 + - e0) by lia.
    rewrite Z.pow_add_r by lia. unfold D.
    change 8796093022208000 with (1000 * 2 ^ 43). ring.
  - rewrite Hv1, Hqr, Hmd, <- Z.mul_assoc, <- Z.pow_add_r by lia.
    by replace (- e + (e + 43 - e0)) with (43 - e0) by lia.
  - done.
  - destruct Hmr as [-> | [-> Hrb]]; [by left | right].
    split; [done |]. by apply Hr1.
Qed.

(** *** The double of an integer *)

Lemma iter_xO_pow2 m k : Z.pos (Pos.iter xO m k) = Z.pos m * 2 ^ Z.pos k.
Proof.
  induction k as [|k IH] using Pos.peano_ind;
    [cbn [Pos.iter]; change (2 ^ 1) with 2; lia |].
  rewrite Pos.iter_succ, Pos2Z.inj_xO, IH, Pos2Z.inj_succ, Z.pow_succ_r by lia.
  ring.
Qed.

Lemma Zdigits2_mul_pow2 z k :
  0 < z → 0 ≤ k → Zdigits2 (z * 2 ^ k) = Zdigits2 z + k.
Proof.
  intros Hz Hk. assert (0 < 2 ^ k) by (apply Z.pow_pos_nonneg; lia).
  rewrite !Zdigits2_log2 by nia. rewrite Z.log2_mul_pow2 by lia. lia.
Qed.

(** A mantissa that needs no shift is kept as it is. *)
Lemma binary_round_aux_exact s m e :
  fexp prec emax (Zdigits2 (Z.pos m) + e) ≤ e → e ≤ emax - prec →
  binary_round_aux prec emax s (Z.pos m) e loc_Exact = S754_finite s m e.
Proof.
  intros Hf He. unfold binary_round_aux, shr_fexp, shr.
  destruct (fexp prec emax (Zdigits2 (Z.pos m) + e) - e) as [|p|p] eqn:Hn;
    [| lia |]; cbn [shr_record_of_loc loc_of_shr_record round_nearest_even shr_m];
    rewrite Hn; cbn [shr_m]; by rewrite (proj2 (Z.leb_le _ _) He).
Qed.

(** An integer of at most 53 binary digits is a double: [ofZ] does not
    round it. *)
Lemma ofZ_integer d :
  0 < d < 2 ^ 53 →
  ∃ m e, ofZ d = S754_finite false m e
         ∧ e ≤ 0 ∧ Z.pos m = d * 2 ^ (- e)
         ∧ Zdigits2 (Z.pos m) + e ≤ 53.
Proof.
  intros [Hd0 Hd]. destruct d as [|p|p]; [lia | | lia].
  unfold ofZ, binary_normalize, binary_round, shl_align.
  pose proof (Zdigits2_le (Z.pos p) 53 ltac:(lia) ltac:(lia) Hd) as Hdig.
  assert (0 < Zdigits2 (Z.pos p)) as Hpos by done.
  cbn [Zdigits2] in Hdig, Hpos.
  set (D := Z.pos (digits2_pos p)) in *.
  assert (fexp prec emax (D + 0) = D - 53) as ->
    by (unfold fexp, emin, prec, emax; lia).
  destruct (D - 53 - 0) as [|k|k] eqn:Hk.
  - rewrite binary_round_aux_exact.
    + eexists _, _. split; [done |]. split_and!; [done | cbn; lia | cbn; lia].
    + cbn [Zdigits2]. fold D. unfold fexp, emin, prec, emax. lia.
    + done.
  - lia.
  - assert (Zdigits2 (Z.pos (Pos.iter xO p k)) = 53) as Hd53.
    { rewrite iter_xO_pow2, Zdigits2_mul_pow2 by lia. cbn [Zdigits2]. lia. }
    rewrite binary_round_aux_exact.
    + eexists _, _. split; [done |]. rewrite Hd53, iter_xO_pow2.
      split_and!; [lia | do 2 f_equal; lia | lia].
    + rewrite Hd53. unfold fexp, emin, prec, emax. lia.
    + unfold prec, emax. lia.
Qed.

(** [Math.floor(d / 1000)] for an integer [d] of at most 53 binary
    digits is the integer quotient: the rounding of the division does
    not show. *)
Lemma floorDiv1000_ofZ d :
  0 ≤ d < 2 ^ 53 → floorDiv1000 (ofZ d) = Fin (d / 1000).
Proof.
  intros [Hd0 Hd]. destruct (Z.eq_dec d 0) as [->|Hne]; [done |].
  destruct (ofZ_integer d ltac:(lia)) as (m & e & -> & He & Hm & Hdig).
  by apply floorDiv1000_integer.
Qed.

(** ** The records *)

Lemma js_or_truthy a b : truthy a = true → a ||| b = a.
Proof. unfold js_or. by intros ->. Qed.

Lemma js_or_falsy a b : truthy a = false → a ||| b = b.
Proof. unfold js_or. by intros ->. Qed.

Lemma detailTask_resolved client i track songInfo :
  truthy (Track.url track) = true →
  getSongInfo client i (Track.url track) = DetailResolved songInfo →
  detailTask client i (Some track)
  = (successRecord songInfo track, [CallGetSongInfo (Track.url track)]).
Proof. intros Hu Hg. unfold detailTask. by rewrite Hu, Hg. Qed.

Lemma detailTask_rejected client i track err :
  truthy (Track.url track) = true →
  getSongInfo client i (Track.url track) = DetailRejected err →
  detailTask client i (Some track)
  = (failedRecord track err, [CallGetSongInfo (Track.url track)]).
Proof. intros Hu Hg. unfold detailTask. by rewrite Hu, Hg. Qed.

Lemma detailTask_missing_url client i track :
  track = None ∨ (∃ t, track = Some t ∧ truthy (Track.url t) = false) →
  detailTask client i track = (missingUrlRecord track, []).
Proof.
  intros [-> | (t & -> & Hu)]; [done |]. unfold detailTask. by rewrite Hu.
Qed.

Lemma detailTask_duration client i track :
  duration_seconds (detailTask client i track).1
  = durationSeconds (sourceDuration client i track).
Proof.
  unfold detailTask, sourceDuration. destruct track as [t|]; [| done].
  destruct (truthy (Track.url t)); [| done]. cbn.
  by destruct (getSongInfo client i (Track.url t)).
Qed.

(** [o?.name || 'Unknown Artist'] by the shape of [o]. *)
Lemma author_name_cases o :
  (∀ fields, o = JObj fields → truthy (field (lit "name") fields) = true →
     optName o ||| str "Unknown Artist" = field (lit "name") fields)
  ∧ (∀ fields, o = JObj fields → truthy (field (lit "name") fields) = false →
       optName o ||| str "Unknown Artist" = str "Unknown Artist")
  ∧ ((∀ fields, o ≠ JObj fields) →
       optName o ||| str "Unknown Artist" = str "Unknown Artist").
Proof.
  split_and!.
  - intros fields -> H. by apply js_or_truthy.
  - intros fields -> H. by apply js_or_falsy.
  - intros H. destruct o; try done. by destruct (H fields).
Qed.

(** [d ? Math.floor(d / 1000) : 0] by the value of [d]. *)
Lemma durationSeconds_cases d :
  (∀ x, d = Some x → numTruthy x = true →
     durationSeconds d = Math_floor (js_div x (ofZ 1000)))
  ∧ (∀ n, 0 ≤ n < 2 ^ 53 → d = Some (ofZ n) →
       durationSeconds d = Fin (n / 1000))
  ∧ (d = None ∨ d = Some S754_nan ∨ (∃ s, d = Some (S754_zero s)) →
       durationSeconds d = Fin 0).
Proof.
  split_and!.
  - intros x -> Hx. unfold durationSeconds. by rewrite Hx.
  - intros n Hn ->. unfold durationSeconds.
    destruct (Z.eq_dec n 0) as [->|Hne]; [done |].
    rewrite <- (floorDiv1000_ofZ n Hn).
    by destruct (ofZ_integer n ltac:(lia)) as (m & e & -> & _).
  - by intros [-> | [-> | [s ->]]].
Qed.

Lemma floor_div_1000 d : 1000 * (d / 1000) ≤ d < 1000 * (d / 1000) + 1000.
Proof.
  pose proof (Z.div_mod d 1000). pose proof (Z.mod_pos_bound d 1000). lia.
Qed.

(** C3, as stated, fails on the duration.  A payload without a
    duration gives [duration_seconds: 0], where [Math.floor(undefined /
    1000)] is [NaN]; and a payload whose duration is 2^60 milliseconds, a
    number a double holds exactly, gives 1152921504606847, one more than
    the floor of 2^60 / 1000, the division having rounded up. *)
Lemma C3_counterexample :
  let record (duration : option double) :=
    (detailTask
       {| search := search Sample.client;
          getSongInfo := λ _ _,
            DetailResolved
              (SongInfo.mk (str "one") JUndefined JUndefined JUndefined
                 duration JUndefined JUndefined) |}
       0 (Some (Sample.track "one"))).1 in
  duration_seconds (record None) = Fin 0
  ∧ Math_floor (js_div S754_nan (ofZ 1000)) = NaN
  ∧ ofZ (2 ^ 60) = S754_finite false (2 ^ 52) 8
  ∧ duration_seconds (record (Some (ofZ (2 ^ 60)))) = Fin 1152921504606847
  ∧ 2 ^ 60 / 1000 = 1152921504606846
  ∧ duration_seconds (record (Some (ofZ (2 ^ 60)))) ≠ Fin (2 ^ 60 / 1000).
Proof.
  intros record. split_and!; try reflexivity.
  intros H. vm_compute in H. discriminate.
Qed.

(** C3, amended.  The record of a lookup that resolved: each of title,
    author name, thumbnail, genre and date is the payload's when that is
    truthy and otherwise (a missing field is [undefined]) the default
    "Unknown Title", "Unknown Artist", [null], "Unknown", "Unknown", the
    author name being the [name] of the payload's [author] when that is
    an object; the url is the payload's and otherwise the search item's;
    [duration_seconds] is [Math.floor] of the payload's milliseconds over
    1000 in the arithmetic of doubles, which for a whole number of
    milliseconds below 2^53 is the floor of the exact quotient, and it is
    0 when the duration is missing, 0 or [NaN]; [fetchError] is false. *)
Theorem C3_success_record client i track songInfo :
  truthy (Track.url track) = true →
  getSongInfo client i (Track.url track) = DetailResolved songInfo →
  let r := (detailTask client i (Some track)).1 in
  let present (v : jsval) := truthy v = true in
  let missing (v : jsval) := truthy v = false in
  missing JUndefined
  ∧ (present (SongInfo.title songInfo) → title r = SongInfo.title songInfo)
  ∧ (missing (SongInfo.title songInfo) → title r = str "Unknown Title")
  ∧ (∀ fields, SongInfo.author songInfo = JObj fields →
       present (field (lit "name") fields) →
       author r = field (lit "name") fields)
  ∧ (∀ fields, SongInfo.author songInfo = JObj fields →
       missing (field (lit "name") fields) →
       author r = str "Unknown Artist")
  ∧ ((∀ fields, SongInfo.author songInfo ≠ JObj fields) →
       author r = str "Unknown Artist")
  ∧ (present (SongInfo.thumbnail songInfo) →
     thumbnail r = SongInfo.thumbnail songInfo)
  ∧ (missing (SongInfo.thumbnail songInfo) → thumbnail r = JNull)
  ∧ (present (SongInfo.genre songInfo) → genre r = SongInfo.genre songInfo)
  ∧ (missing (SongInfo.genre songInfo) → genre r = str "Unknown")
  ∧ (present (SongInfo.publishedAt songInfo) →
     publishedAt r = SongInfo.publishedAt songInfo)
  ∧ (missing (SongInfo.publishedAt songInfo) → publishedAt r = str "Unknown")
  ∧ (present (SongInfo.url songInfo) → url r = SongInfo.url songInfo)
  ∧ (missing (SongInfo.url songInfo) → url r = Track.url track)
  ∧ (∀ x, SongInfo.duration songInfo = Some x → numTruthy x = true →
       duration_seconds r = Math_floor (js_div x (ofZ 1000)))
  ∧ (∀ d, 0 ≤ d < 2 ^ 53 → SongInfo.duration songInfo = Some (ofZ d) →
       duration_seconds r = Fin (d / 1000)
       ∧ 1000 * (d / 1000) ≤ d < 1000 * (d / 1000) + 1000)
  ∧ (SongInfo.duration songInfo = None
     ∨ SongInfo.duration songInfo = Some S754_nan
     ∨ (∃ s, SongInfo.duration songInfo = Some (S754_zero s)) →
     duration_seconds r = Fin 0)
  ∧ fetchError r = false
  ∧ errorMessage r = None.
Proof.
  intros Hu Hg r present missing. subst r present missing.
  rewrite (detailTask_resolved _ _ _ _ Hu Hg). cbn [fst successRecord].
  cbn [title url author thumbnail genre publishedAt duration_seconds
       fetchError errorMessage].
  destruct (author_name_cases (SongInfo.author songInfo)) as (Ha1 & Ha2 & Ha3).
  destruct (durationSeconds_cases (SongInfo.duration songInfo))
    as (Hd1 & Hd2 & Hd3).
  split_and!;
    try done; try apply js_or_truthy; try apply js_or_falsy.
  intros d Hd Hs. split; [by apply Hd2 | apply floor_div_1000].
Qed.

Lemma C3_witness :
  let r := (detailTask Sample.client 2 (Some (Sample.track "three"))).1 in
  title r = str "three"
  ∧ author r = str "Artist"
  ∧ thumbnail r = JNull
  ∧ genre r = str "lofi"
  ∧ publishedAt r = str "Unknown"
  ∧ url r = str "https://soundcloud.com/a/three"
  ∧ duration_seconds r = Fin 61.
Proof.
  intros r.
  destruct (C3_success_record Sample.client 2 (Sample.track "three")
              (Sample.song "three" 61999) eq_refl eq_refl)
    as (_ & Ht & _ & Ha & _ & _ & _ & Hth & Hg & _ & _ & Hp & Hu & _ & _
        & Hd & _).
  split_and!.
  - exact (Ht eq_refl).
  - exact (Ha _ eq_refl eq_refl).
  - exact (Hth eq_refl).
  - exact (Hg eq_refl).
  - exact (Hp eq_refl).
  - exact (Hu eq_refl).
  - exact (proj1 (Hd 61999 ltac:(lia) eq_refl)).
Defined.

Lemma lookupCalls_missing_url track :
  track = None ∨ (∃ t, track = Some t ∧ truthy (Track.url t) = false) →
  lookupCalls track = [].
Proof. intros [-> | (t & -> & Hu)]; [done |]. cbn. by rewrite Hu. Qed.

(** C7.  For a search item that lacks a url (the item is [null], or its
    [url] is missing or otherwise falsy) no lookup is issued, and the
    record is built from what the item carries: its title, the [name] of
    its [author], its thumbnail and its duration, each replaced by a
    default ("Unknown Title (URL missing)", "Unknown Artist", [null], 0)
    when missing, and all of them when the item is [null]; the url is
    [null], [fetchError] is true and the message is "Missing track URL in
    search result".  In a request, the lookups made are those of the
    other search results, and once the response is sent the record stands
    at the position of the item. *)
Theorem C7_missing_url client i track :
  track = None ∨ (∃ t, track = Some t ∧ truthy (Track.url t) = false) →
  let r := (detailTask client i track).1 in
  let present (v : jsval) := truthy v = true in
  let missing (v : jsval) := truthy v = false in
  (detailTask client i track).2 = []
  ∧ fetchError r = true
  ∧ errorMessage r = Some (str "Missing track URL in search result")
  ∧ url r = JNull
  ∧ genre r = str "Unknown"
  ∧ publishedAt r = str "Unknown"
  ∧ (track = None →
     title r = str "Unknown Title (URL missing)"
     ∧ author r = str "Unknown Artist"
     ∧ thumbnail r = JNull
     ∧ duration_seconds r = Fin 0)
  ∧ (∀ t, track = Some t →
       (present (Track.title t) → title r = Track.title t)
       ∧ (missing (Track.title t) →
          title r = str "Unknown Title (URL missing)")
       ∧ (∀ fields, Track.author t = JObj fields →
            present (field (lit "name") fields) →
            author r = field (lit "name") fields)
       ∧ (∀ fields, Track.author t = JObj fields →
            missing (field (lit "name") fields) →
            author r = str "Unknown Artist")
       ∧ ((∀ fields, Track.author t ≠ JObj fields) →
            author r = str "Unknown Artist")
       ∧ (present (Track.thumbnail t) → thumbnail r = Track.thumbnail t)
       ∧ (missing (Track.thumbnail t) → thumbnail r = JNull)
       ∧ (∀ x, Track.duration t = Some x → numTruthy x = true →
            duration_seconds r = Math_floor (js_div x (ofZ 1000)))
       ∧ (∀ d, 0 ≤ d < 2 ^ 53 → Track.duration t = Some (ofZ d) →
            duration_seconds r = Fin (d / 1000))
       ∧ (Track.duration t = None
          ∨ Track.duration t = Some S754_nan
          ∨ (∃ s, Track.duration t = Some (S754_zero s)) →
          duration_seconds r = Fin 0))
  ∧ ∀ req order q candidates,
      validQuery (req_q req) = Some q →
      search client q (lit "track") (normalizeLimit (req_limit req))
        = SearchResolved (Some candidates) →
      candidates !! i = Some track →
      (handleSearch req client order).2
      = CallSearch q (lit "track") (normalizeLimit (req_limit req))
          :: (take i candidates ≫= lookupCalls)
          ++ (drop (S i) candidates ≫= lookupCalls)
      ∧ (∀ response calls,
           handleSearch req client order
           = (Responded 200 (SearchBody response), calls) →
           results response !! i = Some r)
      ∧ ((∀ j c, candidates !! j = Some c → lookupCalls c ≠ [] → j ∈ order) →
         (∀ j c, candidates !! j = Some c → detailRejects client j c = false) →
         ∃ response,
           (handleSearch req client order).1
           = Responded 200 (SearchBody response)).
Proof.
  intros H r present missing. subst r present missing.
  rewrite (detailTask_missing_url _ _ _ H). cbn [fst snd].
  split_and!; try done.
  - by intros ->.
  - intros t ->. cbn.
    destruct (author_name_cases (Track.author t)) as (Ha1 & Ha2 & Ha3).
    destruct (durationSeconds_cases (Track.duration t)) as (Hd1 & Hd2 & Hd3).
    split_and!; try done; try apply js_or_truthy; try apply js_or_falsy.
  - intros req order q candidates Hq Hs Hi. split_and!.
    + rewrite handleSearch_calls, Hq, Hs. f_equal.
      rewrite <- (take_drop_middle _ _ _ Hi) at 1.
      by rewrite bind_app, bind_cons, (lookupCalls_missing_url _ H).
    + intros response calls Hh.
      rewrite (handleSearch_200_results _ _ _ _ _ _ _ Hq Hs Hh).
      rewrite list_lookup_imap, Hi. cbn [fmap option_fmap option_map].
      by rewrite (detailTask_missing_url _ _ _ H).
    + intros Hall Hok.
      rewrite (handleSearch_resolved _ _ _ _ _ Hq Hs Hall Hok). by eexists.
Qed.

Lemma C7_witness :
  let item := Some (Track.mk (str "Rain") (JStr [])
                      (JObj [(lit "name", str "Nimbus")]) JUndefined
                      (Some (ofZ 4500))) in
  let client :=
    {| search := λ _ _ _,
         SearchResolved (Some [Some (Sample.track "one"); item]);
       getSongInfo := getSongInfo Sample.client |} in
  let r := (detailTask client 1 item).1 in
  (detailTask client 1 item).2 = []
  ∧ fetchError r = true
  ∧ errorMessage r = Some (str "Missing track URL in search result")
  ∧ url r = JNull
  ∧ title r = str "Rain"
  ∧ author r = str "Nimbus"
  ∧ thumbnail r = JNull
  ∧ duration_seconds r = Fin 4
  ∧ (handleSearch Sample.request client [1; 0]%nat).2
    = [CallSearch (lit "lofi") (lit "track") 3;
       CallGetSongInfo (Track.url (Sample.track "one"))]
  ∧ ∃ response,
      (handleSearch Sample.request client [1; 0]%nat).1
      = Responded 200 (SearchBody response)
      ∧ results response !! 1%nat = Some r.
Proof.
  intros item client r.
  destruct (C7_missing_url client 1 item)
    as (Hcalls & Hf & He & Hu & _ & _ & _ & Hitem & Hh).
  { right. eexists. split; reflexivity. }
  destruct (Hitem _ eq_refl)
    as (Ht & _ & Ha & _ & _ & _ & Hth & _ & Hd & _).
  destruct (Hh Sample.request [1; 0]%nat (lit "lofi")
              [Some (Sample.track "one"); item] eq_refl eq_refl eq_refl)
    as (Hc & Hrec & Hok).
  split_and!.
  - exact Hcalls.
  - exact Hf.
  - exact He.
  - exact Hu.
  - exact (Ht eq_refl).
  - exact (Ha _ eq_refl eq_refl).
  - exact (Hth eq_refl).
  - exact (Hd 4500 ltac:(lia) eq_refl).
  - exact Hc.
  - destruct Hok as [response Hresp].
    + intros j c Hj _. apply lookup_lt_Some in Hj. cbn in Hj.
      destruct j as [|[|j]]; [repeat constructor.. | lia].
    + intros j c Hj.
      destruct j as [|[|j]]; [by injection Hj as <-.. | done].
    + exists response. split; [exact Hresp |].
      apply (Hrec response (handleSearch Sample.request client [1; 0]%nat).2).
      rewrite <- Hresp. by destruct (handleSearch Sample.request client _).
Defined.

(** C9, as stated, fails: a lookup that resolves with a duration of -1
    millisecond gives [duration_seconds: -1], since [-1] is truthy and
    [Math.floor(-1 / 1000)] is [-1]; and one that resolves with a
    duration of [Infinity] gives [Infinity], which is no integer. *)
Lemma C9_counterexample :
  let record (duration : double) :=
    (detailTask
       {| search := search Sample.client;
          getSongInfo := λ _ _,
            DetailResolved
              (SongInfo.mk (str "one") JUndefined JUndefined JUndefined
                 (Some duration) JUndefined JUndefined) |}
       0 (Some (Sample.track "one"))).1 in
  duration_seconds (record (ofZ (-1))) = Fin (-1)
  ∧ duration_seconds (record (S754_infinity false)) = PosInf
  ∧ (¬ ∃ n, duration_seconds (record (ofZ (-1))) = Fin n ∧ 0 ≤ n)
  ∧ (¬ ∃ n, duration_seconds (record (S754_infinity false)) = Fin n ∧ 0 ≤ n).
Proof.
  intros record. split_and!; [reflexivity | reflexivity | |].
  - intros (n & Hn & Hpos). vm_compute in Hn. injection Hn as <-. lia.
  - intros (n & Hn & _). vm_compute in Hn. discriminate.
Qed.

(** C9, amended.  On each of the three paths [duration_seconds] is a
    non-negative integer whenever the duration it is computed from is
    missing or is a number that is neither negative nor [Infinity] ([NaN],
    a zero, or a positive finite double); it is [Infinity] when that
    duration is [Infinity]. *)
Theorem C9_duration_seconds_nonnegative client i track :
  (∀ x, sourceDuration client i track = Some x →
     valid_binary prec emax x = true ∧ isNegative x = false) →
  (sourceDuration client i track ≠ Some (S754_infinity false) →
   ∃ n, duration_seconds (detailTask client i track).1 = Fin n ∧ 0 ≤ n)
  ∧ (sourceDuration client i track = Some (S754_infinity false) →
     duration_seconds (detailTask client i track).1 = PosInf).
Proof.
  rewrite detailTask_duration. intros Hx.
  destruct (sourceDuration client i track) as [x|]; [| by split; [exists 0 |]].
  destruct (Hx x eq_refl) as [Hv Hn].
  destruct x as [s|s| |s m e]; cbn [isNegative] in Hn; subst; cbn [durationSeconds numTruthy].
  - split; [by exists 0 | done].
  - split; [done | by intros _].
  - split; [by exists 0 | done].
  - split; [| done]. intros _. by apply floorDiv1000_nonneg.
Qed.

Lemma C9_witness :
  ∃ n, duration_seconds
         (detailTask Sample.client 2 (Some (Sample.track "three"))).1 = Fin n
       ∧ 0 ≤ n.
Proof.
  refine (proj1 (C9_duration_seconds_nonnegative Sample.client 2
                   (Some (Sample.track "three")) _) _).
  - intros x Hx. vm_compute in Hx. injection Hx as <-. split; reflexivity.
  - intros Hx. vm_compute in Hx. discriminate.
Defined.

(** C2, as stated, fails: in the sample request the lookup of the
    second search result rejects, and the record returned for it has the
    title "Unknown Title (fetch failed)", where the defaulting rule of
    the success path gives "Unknown Title". *)
Lemma C2_counterexample :
  ∃ response calls r,
    handleSearch Sample.request Sample.client Sample.order
      = (Responded 200 (SearchBody response), calls)
    ∧ getSongInfo Sample.client 1 (Track.url (Sample.track "two"))
      = DetailRejected Sample.boom
    ∧ results response !! 1%nat = Some r
    ∧ title r = str "Unknown Title (fetch failed)"
    ∧ title (specFailedRecord (Sample.track "two") Sample.boom)
      = str "Unknown Title"
    ∧ r ≠ specFailedRecord (Sample.track "two") Sample.boom.
Proof.
  eexists _, _, _. split_and!; try reflexivity.
  intros H. apply (f_equal title) in H. vm_compute in H. discriminate.
Qed.

(** C2, amended.  When one lookup rejects and line 146 logs the url
    and the error's message without throwing, while every other lookup
    that is made resolves and all of them settle, the response is a 200
    with one record per search result in the original order.  The record
    of the failing one is built from the search item's own fields under
    the defaulting rules of the success path, except that a missing title
    defaults to "Unknown Title (fetch failed)"; it has [fetchError: true]
    and the error's message as [errorMessage].  Every other record has
    [fetchError: false] exactly when its search result has a url. *)
Theorem C2_one_failed_lookup req client order q candidates k track err :
  validQuery (req_q req) = Some q →
  search client q (lit "track") (normalizeLimit (req_limit req))
    = SearchResolved (Some candidates) →
  (∀ i c, candidates !! i = Some c → lookupCalls c ≠ [] → i ∈ order) →
  candidates !! k = Some (Some track) →
  truthy (Track.url track) = true →
  getSongInfo client k (Track.url track) = DetailRejected err →
  catchLogThrows track err = false →
  (∀ j t, j ≠ k → candidates !! j = Some (Some t) →
     truthy (Track.url t) = true →
     ∃ songInfo, getSongInfo client j (Track.url t) = DetailResolved songInfo) →
  let present (v : jsval) := truthy v = true in
  let missing (v : jsval) := truthy v = false in
  ∃ response calls failed,
    handleSearch req client order = (Responded 200 (SearchBody response), calls)
    ∧ length (results response) = length candidates
    ∧ (∀ i, results response !! i
            = (λ c, (detailTask client i c).1) <$> candidates !! i)
    ∧ results response !! k = Some failed
    ∧ title failed = Track.title track ||| str "Unknown Title (fetch failed)"
    ∧ url failed = url (specFailedRecord track err)
    ∧ author failed = author (specFailedRecord track err)
    ∧ thumbnail failed = thumbnail (specFailedRecord track err)
    ∧ duration_seconds failed = duration_seconds (specFailedRecord track err)
    ∧ genre failed = genre (specFailedRecord track err)
    ∧ publishedAt failed = publishedAt (specFailedRecord track err)
    ∧ fetchError failed = true
    ∧ errorMessage failed = Some (JsError.message err)
    ∧ url failed = Track.url track
    ∧ (∀ fields, Track.author track = JObj fields →
         present (field (lit "name") fields) →
         author failed = field (lit "name") fields)
    ∧ (∀ fields, Track.author track = JObj fields →
         missing (field (lit "name") fields) →
         author failed = str "Unknown Artist")
    ∧ ((∀ fields, Track.author track ≠ JObj fields) →
         author failed = str "Unknown Artist")
    ∧ (present (Track.thumbnail track) →
       thumbnail failed = Track.thumbnail track)
    ∧ (missing (Track.thumbnail track) → thumbnail failed = JNull)
    ∧ (∀ d, 0 ≤ d < 2 ^ 53 → Track.duration track = Some (ofZ d) →
         duration_seconds failed = Fin (d / 1000))
    ∧ (Track.duration track = None → duration_seconds failed = Fin 0)
    ∧ (∀ message, err = JsError.mk message →
         errorMessage failed = Some message)
    ∧ (∀ j r, j ≠ k → results response !! j = Some r →
         (fetchError r = false
          ↔ ∃ t, candidates !! j = Some (Some t)
                 ∧ truthy (Track.url t) = true)).
Proof.
  intros Hq Hs Hall Hk Hu Hg Hlog Hothers present missing.
  subst present missing.
  assert (∀ i c, candidates !! i = Some c → detailRejects client i c = false)
    as Hok.
  { intros i [t|] Hc; [| done]. unfold detailRejects.
    destruct (truthy (Track.url t)) eqn:Hut; [| done].
    destruct (decide (i = k)) as [->|Hne].
    - rewrite Hk in Hc. injection Hc as <-. by rewrite Hg.
    - by destruct (Hothers i t Hne Hc Hut) as [songInfo ->]. }
  eexists _, _, (failedRecord track err). split.
  { by apply handleSearch_resolved. }
  destruct (author_name_cases (Track.author track)) as (Ha1 & Ha2 & Ha3).
  destruct (durationSeconds_cases (Track.duration track)) as (_ & Hd2 & Hd3).
  cbn [results]. split_and!; try done.
  - apply length_imap.
  - intros i. apply list_lookup_imap.
  - rewrite list_lookup_imap, Hk.
    change (Some (detailTask client k (Some track)).1
            = Some (failedRecord track err)).
    by rewrite (detailTask_rejected _ _ _ _ Hu Hg).
  - cbn. unfold js_or. by rewrite Hu.
  - cbn. by apply js_or_truthy.
  - apply js_or_truthy.
  - apply js_or_falsy.
  - intros Hd. apply Hd3. by left.
  - by intros message ->.
  - intros j r Hj. rewrite list_lookup_imap.
    destruct (candidates !! j) as [c|] eqn:Hc; [| done].
    cbn [fmap option_fmap option_map]. intros [= <-].
    destruct c as [t|]; [| split; [done | by intros (t & [=] & _)]].
    unfold detailTask. destruct (truthy (Track.url t)) eqn:Hut; cbn.
    + destruct (Hothers j t Hj Hc Hut) as [songInfo ->].
      split; [| done]. intros _. by exists t.
    + split; [done |]. intros (t' & [= <-] & Hut'). congruence.
Qed.

Lemma C2_witness :
  let two :=
    Track.mk JUndefined (str "https://soundcloud.com/a/two")
      (JObj [(lit "name", str "Uploader")]) JUndefined (Some (ofZ 90500)) in
  let noUrl := Track.mk (str "Rain") JUndefined JUndefined JUndefined None in
  let client :=
    {| search := λ _ _ _,
         SearchResolved (Some [Some (Sample.track "one"); Some two; Some noUrl]);
       getSongInfo := getSongInfo Sample.client |} in
  ∃ response calls failed,
    handleSearch Sample.request client [1; 0]%nat
      = (Responded 200 (SearchBody response), calls)
    ∧ length (results response) = 3%nat
    ∧ results response !! 1%nat = Some failed
    ∧ title failed = str "Unknown Title (fetch failed)"
    ∧ url failed = str "https://soundcloud.com/a/two"
    ∧ author failed = str "Uploader"
    ∧ thumbnail failed = JNull
    ∧ duration_seconds failed = Fin 90
    ∧ fetchError failed = true
    ∧ errorMessage failed = Some (str "Couldn't parse html!")
    ∧ (∀ r, results response !! 0%nat = Some r → fetchError r = false)
    ∧ (∀ r, results response !! 2%nat = Some r → fetchError r = true).
Proof.
  intros two noUrl client.
  destruct (C2_one_failed_lookup Sample.request client [1; 0]%nat
              (lit "lofi") [Some (Sample.track "one"); Some two; Some noUrl]
              1 two Sample.boom)
    as (response & calls & failed & Hh & Hlen & _ & Hk & Ht & _ & _ & _ & _
        & _ & _ & Hf & _ & Hu & Ha & _ & _ & _ & Hth & Hd & _ & He & Ho).
  - reflexivity.
  - reflexivity.
  - intros i c Hi Hc.
    destruct i as [|[|[|i]]]; [repeat constructor.. | |].
    + injection Hi as <-. by destruct Hc.
    + discriminate.
  - reflexivity.
  - reflexivity.
  - reflexivity.
  - reflexivity.
  - intros j t Hj Hc Hut. destruct j as [|[|[|j]]]; [| done | |].
    + by eexists.
    + injection Hc as <-. discriminate.
    + discriminate.
  - exists response, calls, failed. split_and!.
    + exact Hh.
    + exact Hlen.
    + exact Hk.
    + exact Ht.
    + exact Hu.
    + exact (Ha _ eq_refl eq_refl).
    + exact (Hth eq_refl).
    + exact (Hd 90500 ltac:(lia) eq_refl).
    + exact Hf.
    + exact (He _ eq_refl).
    + intros r Hr. apply (Ho 0%nat r ltac:(done) Hr). by eexists.
    + intros r Hr. destruct (fetchError r) eqn:Hfe; [done |].
      apply (Ho 2%nat r ltac:(done) Hr) in Hfe as (t & [= <-] & Hut).
      discriminate.
Defined.

(** ** The earlier variant

    [src/unnamed/part_000] keeps the one-record-per-result shape of the
    fan-out; the validation and the limit bounds are those of [server.js]
    only. *)

Lemma part000_joinFrom_fulfilled {A} (vs : list A) order slots :
  Part000.joinFrom (Some <$> vs) order slots
  = from_option Part000.Values Part000.StillPending
      (mapM id (fold_left (settle ((Waiting ∘ Some) <$> vs)) order slots)).
Proof.
  revert slots. induction order as [|i order IH]; intros slots; [done |].
  cbn [Part000.joinFrom fold_left]. rewrite list_lookup_fmap. unfold settle.
  rewrite list_lookup_fmap. destruct (vs !! i); cbn; apply IH.
Qed.

Lemma part000_Promise_all_complete {A} (vs : list A) order :
  (∀ i, (i < length vs)%nat → i ∈ order) →
  Part000.Promise_all (Some <$> vs) order = Part000.Values vs.
Proof.
  intros Hall. unfold Part000.Promise_all.
  rewrite part000_joinFrom_fulfilled, length_fmap.
  assert (replicate (length vs) None
          = startSlot <$> ((Waiting ∘ Some) <$> vs)) as ->.
  { rewrite <- list_fmap_compose. clear Hall.
    induction vs as [|v vs IH]; [done |]. cbn. by rewrite IH. }
  fold (settleAll ((Waiting ∘ Some) <$> vs) order).
  assert (settleAll ((Waiting ∘ Some) <$> vs) order = Some <$> vs) as ->.
  { apply list_eq. intros i. rewrite settleAll_lookup, !list_lookup_fmap.
    destruct (vs !! i) as [v|] eqn:Hv; [| done]. cbn.
    rewrite decide_True; [done |]. apply Hall. by eapply lookup_lt_Some. }
  by rewrite mapM_fmap_Some.
Qed.

(** When no item is [null], the variant too answers with one record
    per search result, in the order of the search results. *)
Lemma part000_one_record_per_candidate req client order q tracks :
  Part000.truthyQuery (req_q req) = Some q →
  Part000.search client q (lit "track") (Part000.limitOf (req_limit req))
    = SearchResolved (Some (Some <$> tracks)) →
  (∀ i, (i < length tracks)%nat → i ∈ order) →
  ∃ response calls,
    Part000.handleSearch req client order
      = (Part000.Responded 200 (Part000.SearchBody response), calls)
    ∧ Part000.total_results response = length (Part000.results response)
    ∧ length (Part000.results response) = length tracks
    ∧ ∀ i, Part000.results response !! i
           = Part000.detailRecord client i <$> tracks !! i.
Proof.
  intros Hq Hs Hall. unfold Part000.handleSearch. rewrite Hq, Hs.
  rewrite imap_fmap, fmap_imap.
  rewrite (imap_ext _ (λ i t, Some (Part000.detailRecord client i t))) by done.
  rewrite <- (fmap_imap (Part000.detailRecord client) Some).
  rewrite part000_Promise_all_complete by (by rewrite length_imap).
  eexists _, _. split; [reflexivity |]. cbn. rewrite length_imap.
  split_and!; [done.. |]. intros i. apply list_lookup_imap.
Qed.

(** A [null] item that settles first fails the whole request. *)
Lemma part000_null_item_is_fatal :
  (Part000.handleSearch Sample.request
     {| Part000.search := λ _ _ _, SearchResolved (Some [None]);
        Part000.getSongInfo := getSongInfo Sample.client |} [0%nat]).1
  = Part000.internalServerError.
Proof. reflexivity. Qed.

(** The variant hands a whitespace-only [q] to the search. *)
Lemma part000_whitespace_query_is_searched req client order s :
  req_q req = Some (QStr s) → s ≠ [] →
  ∃ calls,
    (Part000.handleSearch req client order).2
    = Part000.CallSearch (QStr s) (lit "track")
        (Part000.limitOf (req_limit req)) :: calls.
Proof.
  intros Hq Hs. unfold Part000.handleSearch. rewrite Hq.
  destruct s as [|c r]; [done |]. cbn [Part000.truthyQuery].
  destruct (Part000.search client _ _ _) as [[l|]|]; try by eexists.
  destruct (Part000.Promise_all _ order); by eexists.
Qed.

(** The variant bounds the limit neither above nor below. *)
Lemma part000_limit_is_not_clamped :
  Part000.limitOf (Some (QStr (lit "60"))) = 60
  ∧ Part000.limitOf (Some (QStr (lit "-5"))) = -5
  ∧ Part000.limitOf (Some (QStr (lit "0"))) = 10
  ∧ Part000.limitOf (Some (QStr (lit "25abc"))) = 25
  ∧ Part000.limitOf None = 10.
Proof. by split_and!. Qed.


(** * Further properties of [server.js] *)

(** ** The limit *)

(** X1.  Line 78 throws exactly on a [limit] that cannot be converted
    to a string; on every other [limit], and without one, the limit the
    handler goes on with lies between 1 and 50. *)
Theorem processedLimit_range rawLimit :
  (processedLimit rawLimit = None ↔ limitThrows rawLimit = true)
  ∧ ∀ limit, processedLimit rawLimit = Some limit → 1 ≤ limit ≤ 50.
Proof.
  unfold processedLimit. destruct (limitThrows rawLimit).
  - by split.
  - split; [done |]. intros limit [= <-]. apply normalizeLimit_bounds.
Qed.

Lemma processedLimit_range_witness :
  ∃ limit, processedLimit (Some (QStr (lit "999"))) = Some limit
           ∧ 1 ≤ limit ≤ 50.
Proof.
  exists 50. split; [reflexivity |].
  apply (proj2 (processedLimit_range (Some (QStr (lit "999"))))).
  reflexivity.
Defined.

Lemma trimStart_app_whitespace ws s :
  Forall (λ c, isWhiteSpace c = true) ws → trimStart (ws ++ s) = trimStart s.
Proof. induction 1 as [|c ws Hc _ IH]; [done |]. cbn. by rewrite Hc. Qed.

Lemma decimalValue_from acc ds :
  Forall (λ c, isDigit c = true) ds → 0 ≤ acc →
  0 ≤ fold_left (λ acc c, 10 * acc + digitValue c) ds acc.
Proof.
  intros Hds. revert acc. induction Hds as [|c ds Hc _ IH]; intros acc Hacc.
  - done.
  - cbn. apply IH. apply isDigit_range in Hc. unfold digitValue. lia.
Qed.

Lemma decimalValue_nonneg ds :
  Forall (λ c, isDigit c = true) ds → 0 ≤ decimalValue ds.
Proof. intros Hds. by apply decimalValue_from. Qed.

Lemma parseInt10_signed ds rest :
  ds ≠ [] →
  Forall (λ c, isDigit c = true) ds →
  match rest with c :: _ => isDigit c = false | [] => True end →
  parseInt10 (45%N :: ds ++ rest) = Some (- decimalValue ds)
  ∧ parseInt10 (43%N :: ds ++ rest) = Some (decimalValue ds).
Proof.
  intros Hne Hds Hrest.
  change (parseInt10 (45%N :: ds ++ rest))
    with (match leadingDigits (ds ++ rest) with
          | [] => None
          | d :: r => Some (-1 * decimalValue (d :: r))
          end).
  change (parseInt10 (43%N :: ds ++ rest))
    with (match leadingDigits (ds ++ rest) with
          | [] => None
          | d :: r => Some (1 * decimalValue (d :: r))
          end).
  rewrite leadingDigits_app by done.
  destruct ds as [|c ds]; [done |].
  generalize (decimalValue (c :: ds)). intros v. split; f_equal; lia.
Qed.

(** X3.  Signs and leading whitespace in [limit]: whitespace in front
    is skipped; a minus sign in front of digits gives a number that is
    not positive, so the default 10 is used; a plus sign in front of
    digits changes nothing. *)
Theorem limit_sign_and_whitespace ws ds rest :
  Forall (λ c, isWhiteSpace c = true) ws →
  ds ≠ [] →
  Forall (λ c, isDigit c = true) ds →
  match rest with c :: _ => isDigit c = false | [] => True end →
  (∀ s, normalizeLimit (Some (QStr (ws ++ s))) = normalizeLimit (Some (QStr s)))
  ∧ normalizeLimit (Some (QStr (ws ++ 45%N :: ds ++ rest))) = 10
  ∧ normalizeLimit (Some (QStr (ws ++ 43%N :: ds ++ rest)))
    = normalizeLimit (Some (QStr ds)).
Proof.
  intros Hws Hne Hds Hrest.
  assert (∀ s, normalizeLimit (Some (QStr (ws ++ s)))
               = normalizeLimit (Some (QStr s))) as Hskip.
  { intros s. unfold normalizeLimit, parseInt10. cbn [paramToString qToString].
    by rewrite trimStart_app_whitespace. }
  destruct (parseInt10_signed ds rest Hne Hds Hrest) as [Hminus Hplus].
  split_and!; [done | |]; rewrite Hskip; unfold normalizeLimit;
    cbn [paramToString qToString].
  - rewrite Hminus. pose proof (decimalValue_nonneg ds Hds).
    by rewrite (proj2 (Z.leb_le _ 0)) by lia.
  - rewrite Hplus.
    pose proof (parseInt10_digits_prefix ds [] Hne Hds I) as Hp.
    rewrite app_nil_r in Hp. by rewrite Hp.
Qed.

Lemma limit_sign_and_whitespace_witness :
  normalizeLimit (Some (QStr (lit "  -5"))) = 10
  ∧ normalizeLimit (Some (QStr (lit "  +5 items"))) = 5.
Proof.
  destruct (limit_sign_and_whitespace (lit "  ") (lit "5") [])
    as (_ & Hminus & _); [repeat constructor | discriminate
                          | repeat constructor | exact I |].
  destruct (limit_sign_and_whitespace (lit "  ") (lit "5") (lit " items"))
    as (_ & _ & Hplus); [repeat constructor | discriminate
                         | repeat constructor | reflexivity |].
  split; [exact Hminus | exact Hplus].
Defined.

Lemma leadingDigits_stop body c t :
  isDigit c = false → leadingDigits (body ++ c :: t) = leadingDigits body.
Proof.
  intros Hc. induction body as [|b body IH]; cbn.
  - by rewrite Hc.
  - destruct (isDigit b); [by rewrite IH | done].
Qed.

(** A code unit that is no whitespace, sign or digit ends what
    [parseInt] reads. *)
Lemma parseInt10_stop s c t :
  isWhiteSpace c = false → isDigit c = false → c ≠ 45%N → c ≠ 43%N →
  parseInt10 (s ++ c :: t) = parseInt10 s.
Proof.
  intros Hw Hd Hm Hp. unfold parseInt10.
  assert (splitSign (c :: t) = (1, c :: t)) as Hc.
  { unfold splitSign. by rewrite !(proj2 (N.eqb_neq c _)). }
  induction s as [|a s IH].
  - cbn [app trimStart]. rewrite Hw, Hc. cbn. by rewrite Hd.
  - cbn [app trimStart]. destruct (isWhiteSpace a); [done |].
    unfold splitSign. destruct (a =? 45)%N; [| destruct (a =? 43)%N].
    + by rewrite leadingDigits_stop.
    + by rewrite leadingDigits_stop.
    + change (a :: s ++ c :: t) with ((a :: s) ++ c :: t).
      by rewrite leadingDigits_stop.
Qed.


Lemma limitThrows_object fields :
  limitThrows (Some (QObj fields)) = true ↔ lit "toString" ∈ fields.*1.
Proof.
  cbn [limitThrows qToStringThrows]. rewrite existsb_exists. split.
  - intros ([k v] & Hin & Hk). unfold jsstring_eqb in Hk. cbn [fst] in Hk.
    apply bool_decide_eq_true in Hk as <-.
    apply list_elem_of_In in Hin. by apply (list_elem_of_fmap_2 fst) in Hin.
  - intros ([k v] & -> & Hin)%list_elem_of_fmap. exists (k, v).
    split; [by apply list_elem_of_In |]. by apply bool_decide_eq_true.
Qed.

(** X4.  A [limit] sent several times reaches the handler as an array
    and, where the array converts to a string, is read as its first item
    alone; a [limit] sent as an object ([limit[a]=1]) gives the default
    10, unless one of its keys is [toString], on which line 78 throws; an
    empty array gives the default 10. *)
Theorem limit_array_and_object s items fields :
  (limitThrows (Some (QArr (QStr s :: items))) = false →
   processedLimit (Some (QArr (QStr s :: items)))
   = processedLimit (Some (QStr s)))
  ∧ (lit "toString" ∉ fields.*1 → processedLimit (Some (QObj fields)) = Some 10)
  ∧ (lit "toString" ∈ fields.*1 → processedLimit (Some (QObj fields)) = None)
  ∧ processedLimit (Some (QArr [])) = Some 10.
Proof.
  split_and!; [| | | done].
  - intros Hl. rewrite !processedLimit_Some by done. f_equal.
    unfold normalizeLimit. cbn [paramToString].
    destruct items as [|x items]; [done |].
    change (qToString (QArr (QStr s :: x :: items)))
      with (s ++ 44%N :: qToString (QArr (x :: items))).
    by rewrite parseInt10_stop.
  - intros Hk. rewrite processedLimit_Some; [done |].
    apply not_true_is_false. by rewrite limitThrows_object.
  - intros Hk%limitThrows_object. unfold processedLimit. by rewrite Hk.
Qed.

Lemma limit_array_and_object_witness :
  processedLimit (Some (QArr [QStr (lit "7"); QStr (lit "30")])) = Some 7
  ∧ processedLimit (Some (QObj [(lit "max", QStr (lit "7"))])) = Some 10
  ∧ processedLimit (Some (QObj [(lit "toString", QStr (lit "7"))])) = None.
Proof.
  destruct (limit_array_and_object (lit "7") [QStr (lit "30")]
              [(lit "max", QStr (lit "7"))]) as (Harr & Hobj & _ & _).
  destruct (limit_array_and_object (lit "7") []
              [(lit "toString", QStr (lit "7"))]) as (_ & _ & Hthrow & _).
  split_and!.
  - exact (Harr eq_refl).
  - apply Hobj. intros Hin. by apply list_elem_of_singleton in Hin.
  - apply Hthrow. by left.
Defined.


(** X5.  With radix 10 a hexadecimal prefix is not read: a [limit] that
    starts with [0x] or [0X] parses to 0, and the default 10 is used. *)
Theorem limit_hex_prefix_is_zero x rest :
  x = 120%N ∨ x = 88%N →
  parseInt10 (48%N :: x :: rest) = Some 0
  ∧ normalizeLimit (Some (QStr (48%N :: x :: rest))) = 10.
Proof.
  intros Hx.
  assert (parseInt10 (48%N :: x :: rest) = Some 0) as Hp.
  { destruct Hx as [-> | ->]; reflexivity. }
  split; [done |]. unfold normalizeLimit. cbn [paramToString qToString].
  by rewrite Hp.
Qed.

Lemma limit_hex_prefix_is_zero_witness :
  parseInt10 (lit "0x1F") = Some 0
  ∧ normalizeLimit (Some (QStr (lit "0x1F"))) = 10.
Proof. apply (limit_hex_prefix_is_zero 120%N (lit "1F")). by left. Defined.

(** X2.  A [limit] between 1 and 50 written in plain decimal is used
    as it is. *)
Theorem limit_in_range_is_kept n :
  1 ≤ n ≤ 50 → normalizeLimit (Some (QStr (numberToString n))) = n.
Proof.
  intros Hn.
  assert (forallb
            (λ k, normalizeLimit (Some (QStr (numberToString (Z.of_nat k))))
                  =? Z.of_nat k)
            (seq 1 50) = true) as Hall by (vm_compute; reflexivity).
  rewrite forallb_forall in Hall.
  specialize (Hall (Z.to_nat n)). rewrite Z2Nat.id in Hall by lia.
  apply Z.eqb_eq, Hall, in_seq. lia.
Qed.

Lemma limit_in_range_is_kept_witness :
  normalizeLimit (Some (QStr (lit "37"))) = 37.
Proof. apply (limit_in_range_is_kept 37). lia. Defined.

(** ** The calls on the client *)

Lemma lookupCalls_truthy track :
  Forall (λ call, ∃ u, call = CallGetSongInfo u ∧ truthy u = true)
    (lookupCalls track).
Proof.
  unfold lookupCalls. destruct track as [t|]; [| constructor].
  destruct (truthy (Track.url t)) eqn:Hu; repeat constructor. by eexists.
Qed.

Lemma lookupCalls_length track : (length (lookupCalls track) ≤ 1)%nat.
Proof.
  unfold lookupCalls. destruct track as [t|]; [| cbn; lia].
  destruct (truthy (Track.url t)); cbn; lia.
Qed.

Lemma bind_lookupCalls_length candidates :
  (length (candidates ≫= lookupCalls) ≤ length candidates)%nat.
Proof.
  induction candidates as [|c cs IH]; [done |].
  rewrite bind_cons, length_app. pose proof (lookupCalls_length c).
  cbn [length]. lia.
Qed.

(** X6.  Whatever the request, the client and the order of settling:
    either no call is made at all, or the first call is the one search,
    made with the text of [q] exactly as sent (not trimmed), the kind
    ["track"] and a limit between 1 and 50, and every further call is a
    detail lookup of a truthy url. *)
Theorem handleSearch_call_discipline req client order :
  (handleSearch req client order).2 = []
  ∨ ∃ q lookups,
      req_q req = Some (QStr q)
      ∧ (handleSearch req client order).2
        = CallSearch q (lit "track") (normalizeLimit (req_limit req)) :: lookups
      ∧ 1 ≤ normalizeLimit (req_limit req) ≤ 50
      ∧ Forall (λ call, ∃ u, call = CallGetSongInfo u ∧ truthy u = true)
          lookups.
Proof.
  rewrite handleSearch_calls.
  destruct (validQuery (req_q req)) as [q|] eqn:Hq; [right | by left].
  apply validQuery_Some in Hq as [Hq _].
  eexists q, _.
  split_and!; [done | done | apply normalizeLimit_bounds.. |].
  destruct (search client q _ _) as [[candidates|]|]; try constructor.
  induction candidates as [|c cs IH]; [constructor |].
  rewrite bind_cons. apply Forall_app. split; [apply lookupCalls_truthy | done].
Qed.

(** X7.  Once the search has resolved with an array, the lookups made
    are exactly those of the search results that have a url, in the order
    of the search results (at most one per result), and this whatever the
    order in which they settle, and whether or not they settle at all. *)
Theorem handleSearch_lookups req client order q candidates :
  validQuery (req_q req) = Some q →
  search client q (lit "track") (normalizeLimit (req_limit req))
    = SearchResolved (Some candidates) →
  (handleSearch req client order).2
  = CallSearch q (lit "track") (normalizeLimit (req_limit req))
      :: (candidates ≫= lookupCalls)
  ∧ (length (candidates ≫= lookupCalls) ≤ length candidates)%nat
  ∧ ∀ order', (handleSearch req client order').2
              = (handleSearch req client order).2.
Proof.
  intros Hq Hs. rewrite !handleSearch_calls, Hq, Hs.
  split_and!; [done | apply bind_lookupCalls_length |].
  intros order'. by rewrite handleSearch_calls, Hq, Hs.
Qed.

Lemma handleSearch_lookups_witness :
  (handleSearch Sample.request Sample.client []).2
  = [CallSearch (lit "lofi") (lit "track") 3;
     CallGetSongInfo (Track.url (Sample.track "one"));
     CallGetSongInfo (Track.url (Sample.track "two"));
     CallGetSongInfo (Track.url (Sample.track "three"))]
  ∧ ∀ order', (handleSearch Sample.request Sample.client order').2
              = (handleSearch Sample.request Sample.client []).2.
Proof.
  destruct (handleSearch_lookups Sample.request Sample.client []
              (lit "lofi") Sample.candidates eq_refl eq_refl)
    as (Hcalls & _ & Horder).
  split; [exact Hcalls | exact Horder].
Defined.

(** ** The join *)

(** X8.  There is no timeout: when the search has resolved with an
    array, the handler leaves the request unanswered exactly when some
    lookup it made never settles and no lookup that settles makes its
    callback throw.  A search result without a url waits for nothing. *)
Theorem handleSearch_pending_iff req client order q candidates :
  validQuery (req_q req) = Some q →
  search client q (lit "track") (normalizeLimit (req_limit req))
    = SearchResolved (Some candidates) →
  (handleSearch req client order).1 = Pending
  ↔ (∃ i c, candidates !! i = Some c ∧ lookupCalls c ≠ [] ∧ i ∉ order)
    ∧ (∀ i c, i ∈ order → candidates !! i = Some c →
         detailRejects client i c = false).
Proof.
  intros Hq Hs. unfold handleSearch. rewrite Hq, Hs.
  destruct candidates as [|c0 cs] eqn:Hc.
  { cbn [fst]. split; [done |]. by intros [(i & c & ? & _) _]. }
  rewrite <- Hc. clear Hc.
  destruct (Promise_all _ order) as [l| |] eqn:Hj; cbn [fst].
  - split; [done |]. intros [(i & c & Hi & Hcalls & Hn) _].
    apply detail_join_values in Hj as (_ & Hall & _).
    destruct Hn. by apply (Hall i c).
  - split; [done |]. intros [_ Hok].
    apply detail_join_rejected in Hj as (i & c & Hin & Hi & Hr).
    by rewrite (Hok i c Hin Hi) in Hr.
  - split; [intros _ | done]. split.
    + destruct (all_waiting_settle_dec (imap (detailPromise client) candidates)
                  order) as [Hall | (i & o & Hi & Hn)].
      * exfalso.
        destruct (mapM fulfilment (imap (detailPromise client) candidates))
          as [l|] eqn:Hm.
        -- by rewrite (proj2 (Promise_all_values _ order l)) in Hj.
        -- apply mapM_None_1 in Hm.
           apply Exists_exists in Hm as (p & Hp & Hnone).
           apply list_elem_of_lookup in Hp as [i Hi].
           destruct p as [v|[v|]]; [done.. |].
           pose proof (Hall i None Hi) as Hin.
           assert (Promise_all (imap (detailPromise client) candidates) order
                   = JoinRejected) as Hrej
             by (apply Promise_all_rejected; eauto).
           congruence.
      * rewrite list_lookup_imap in Hi.
        destruct (candidates !! i) as [c|] eqn:Hc; [| done].
        injection Hi as Hi. exists i, c. split_and!; [done | | done].
        apply (detailPromise_waiting client i c). eauto.
    + intros i c Hin Hi. apply not_true_is_false. intros Hr.
      assert (Promise_all (imap (detailPromise client) candidates) order
              = JoinRejected) as Hrej
        by (apply detail_join_rejected; eauto).
      congruence.
Qed.

Lemma handleSearch_pending_iff_witness :
  (handleSearch Sample.request Sample.client [2; 0]%nat).1 = Pending
  ∧ (handleSearch Sample.request
       {| search := λ _ _ _, SearchResolved (Some [None]);
          getSongInfo := getSongInfo Sample.client |} []).1 ≠ Pending.
Proof.
  split.
  - apply (proj2 (handleSearch_pending_iff Sample.request Sample.client
                    [2; 0]%nat (lit "lofi") Sample.candidates
                    eq_refl eq_refl)).
    split.
    + exists 1%nat, (Some (Sample.track "two")).
      split_and!; [done | done |].
      intros [?|[?|?%elem_of_nil]%elem_of_cons]%elem_of_cons; done.
    + intros i c Hin Hi.
      destruct i as [|[|[|i]]]; [by injection Hi as <-.. | done].
  - discriminate.
Defined.

(** ** The statuses *)



(** X10.  The handler answers 400 exactly when [q] is not a string with
    at least one code unit that is not whitespace. *)
Theorem handleSearch_400_iff req client order :
  (handleSearch req client order).1 = badRequest
  ↔ ¬ ∃ s, req_q req = Some (QStr s)
           ∧ Exists (λ c, isWhiteSpace c = false) s.
Proof.
  assert (validQuery (req_q req) = None
          ↔ ¬ ∃ s, req_q req = Some (QStr s)
                   ∧ Exists (λ c, isWhiteSpace c = false) s) as Hv.
  { split.
    - intros Hnone (s & Hq & Hex). rewrite Hq in Hnone.
      assert (trim s ≠ []) as Ht.
      { rewrite trim_nil_iff. intros Hall.
        apply Exists_exists in Hex as (c & Hc & Hw).
        rewrite Forall_forall in Hall. specialize (Hall c Hc). congruence. }
      assert (validQuery (Some (QStr s)) = Some s) as Hsome
        by (by apply validQuery_Some).
      congruence.
    - intros Hno. destruct (validQuery (req_q req)) as [s|] eqn:Hq; [| done].
      exfalso. apply Hno. apply validQuery_Some in Hq as [Hq Ht].
      exists s. split; [done |]. rewrite trim_nil_iff in Ht.
      apply not_Forall_Exists in Ht; [| apply _].
      eapply Exists_impl; [exact Ht |]. intros c Hc. cbn in Hc.
      by destruct (isWhiteSpace c). }
  rewrite <- Hv. unfold handleSearch.
  destruct (validQuery (req_q req)) as [q|]; [| done].
  split; [| done].
  destruct (search client q _ _) as [[[|c cs]|]|]; cbn [fst]; try discriminate.
  by destruct (Promise_all _ order).
Qed.

(** X11.  Every 200 response is well formed: [query] is [q] as sent,
    [requested_limit] is the raw parameter, [processed_limit] is the
    limit used, between 1 and 50, [actual_result_count] is the length of
    [results], the message is present exactly when [results] is empty,
    and [results] holds the records of the search results in order. *)
Theorem handleSearch_200_inv req client order response calls :
  handleSearch req client order = (Responded 200 (SearchBody response), calls) →
  req_q req = Some (QStr (query response))
  ∧ requested_limit response = req_limit req
  ∧ processed_limit response = normalizeLimit (req_limit req)
  ∧ 1 ≤ processed_limit response ≤ 50
  ∧ actual_result_count response = length (results response)
  ∧ developer response = lit "Ehsan Fazeli"
  ∧ (message response = Some (lit "No tracks found for this query.")
     ↔ results response = [])
  ∧ (message response = None ↔ results response ≠ [])
  ∧ ∃ candidates,
      search client (query response) (lit "track") (processed_limit response)
        = SearchResolved (Some candidates)
      ∧ results response = imap (λ i c, (detailTask client i c).1) candidates.
Proof.
  unfold handleSearch. destruct (validQuery (req_q req)) as [q|] eqn:Hq;
    [| discriminate].
  apply validQuery_Some in Hq as [Hq _].
  pose proof (normalizeLimit_bounds (req_limit req)) as [Hlo Hhi].
  destruct (search client q _ _) as [[[|c cs]|]|error] eqn:Hs;
    try discriminate.
  - intros [= <- <-]. cbn. split_and!; try done. by exists [].
  - destruct (Promise_all _ order) as [l| |] eqn:Hl; [| discriminate..].
    apply detail_join_values in Hl as (_ & _ & ->). intros [= <- <-]. cbn.
    split_and!; try done.
    by exists (c :: cs).
Qed.

Lemma handleSearch_200_inv_witness :
  ∃ response,
    (handleSearch Sample.request Sample.client Sample.order).1
      = Responded 200 (SearchBody response)
    ∧ query response = lit "lofi"
    ∧ processed_limit response = 3
    ∧ actual_result_count response = 3%nat
    ∧ message response = None.
Proof.
  destruct (handleSearch Sample.request Sample.client Sample.order)
    as [outcome calls] eqn:Hh.
  vm_compute in Hh. injection Hh as <- <-.
  eexists. split; [reflexivity |].
  destruct (handleSearch_200_inv Sample.request Sample.client Sample.order
              _ _ eq_refl)
    as (_ & _ & Hp & _ & Hc & _ & _ & Hm & _).
  split_and!; [reflexivity | exact Hp | exact Hc |].
  apply Hm. discriminate.
Defined.

(** ** The records *)

(** X12.  A record has [fetchError: false] exactly when the search
    result has a url and its lookup resolved, and it carries an
    [errorMessage] exactly when [fetchError] is true. *)
Theorem fetchError_iff client i track :
  let r := (detailTask client i track).1 in
  (fetchError r = false
   ↔ ∃ t songInfo,
       track = Some t ∧ truthy (Track.url t) = true
       ∧ getSongInfo client i (Track.url t) = DetailResolved songInfo)
  ∧ (errorMessage r = None ↔ fetchError r = false).
Proof.
  unfold detailTask. destruct track as [t|]; cbn.
  - destruct (truthy (Track.url t)) eqn:Hu; cbn.
    + destruct (getSongInfo client i (Track.url t)) as [songInfo|err] eqn:Hg;
        cbn.
      * split; [| done]. split; [| done]. intros _. by exists t, songInfo.
      * split; [| done]. split; [done |].
        intros (t' & s & [= <-] & _ & Hg'). congruence.
    + split; [| done]. split; [done |].
      intros (t' & s & [= <-] & Hu' & _). congruence.
  - split; [| done]. split; [done |]. by intros (t & s & ? & _).
Qed.

Lemma js_or_default_truthy a b : truthy b = true → truthy (a ||| b) = true.
Proof. intros Hb. unfold js_or. by destruct (truthy a) eqn:Ha. Qed.

Lemma js_or_null a : a ||| JNull = JNull ∨ truthy (a ||| JNull) = true.
Proof. unfold js_or. destruct (truthy a) eqn:Ha; [by right | by left]. Qed.

(** X13.  On every path a record is fully populated: title, author,
    genre and date are truthy (never missing, never the empty string),
    the thumbnail and the url are [null] or truthy, and the url is [null]
    exactly when the search result lacked one. *)
Theorem record_is_populated client i track :
  let r := (detailTask client i track).1 in
  truthy (title r) = true
  ∧ truthy (author r) = true
  ∧ truthy (genre r) = true
  ∧ truthy (publishedAt r) = true
  ∧ (thumbnail r = JNull ∨ truthy (thumbnail r) = true)
  ∧ (url r = JNull ∨ truthy (url r) = true)
  ∧ (url r = JNull ↔ lookupCalls track = []).
Proof.
  pose proof js_or_default_truthy as Hdef. pose proof js_or_null as Hnull.
  unfold detailTask, lookupCalls. destruct track as [t|]; cbn.
  - destruct (truthy (Track.url t)) eqn:Hu; cbn.
    + destruct (getSongInfo client i (Track.url t)) as [songInfo|err]; cbn.
      * split_and!; auto.
        split; [| done]. intros H.
        specialize (Hdef (SongInfo.url songInfo) _ Hu). by rewrite H in Hdef.
      * rewrite (js_or_truthy (Track.url t) JNull Hu). split_and!; auto.
        split; [| done]. intros H. by rewrite H in Hu.
    + split_and!; auto; done.
  - split_and!; auto; done.
Qed.


(** ** CORS and start-up *)

Lemma splitComma_not_nil s : splitComma s ≠ [].
Proof.
  destruct s as [|c r]; [done |]. cbn.
  destruct (c =? 44)%N; [done |]. by destruct (splitComma r).
Qed.

Lemma joinComma_cons x r :
  r ≠ [] → joinComma (x :: r) = x ++ 44%N :: joinComma r.
Proof. by destruct r. Qed.

Lemma joinComma_splitComma s : joinComma (splitComma s) = s.
Proof.
  induction s as [|c r IH]; [done |]. cbn [splitComma].
  destruct (N.eqb_spec c 44) as [->|Hc].
  - rewrite joinComma_cons by apply splitComma_not_nil. by rewrite IH.
  - pose proof (splitComma_not_nil r) as Hne.
    destruct (splitComma r) as [|piece pieces]; [done |].
    destruct pieces as [|p ps]; cbn in *; by rewrite <- IH.
Qed.

Lemma splitComma_pieces s : Forall (λ piece, 44%N ∉ piece) (splitComma s).
Proof.
  induction s as [|c r IH]; cbn [splitComma].
  - repeat constructor. by intros ?%elem_of_nil.
  - destruct (N.eqb_spec c 44) as [->|Hc].
    + constructor; [by intros ?%elem_of_nil | done].
    + pose proof (splitComma_not_nil r) as Hne.
      destruct (splitComma r) as [|piece pieces]; [done |].
      inversion IH as [|? ? Hp Hps]; subst. constructor; [| done].
      intros [?|?]%elem_of_cons; [congruence | done].
Qed.

Lemma splitComma_comma_free s : 44%N ∉ s → splitComma s = [s].
Proof.
  induction s as [|c r IH]; [done |]. intros Hn. cbn [splitComma].
  rewrite (proj2 (N.eqb_neq c 44)).
  - rewrite IH; [done |]. intros ?. apply Hn. by right.
  - intros ->. apply Hn. by left.
Qed.

Lemma splitComma_app_comma piece s :
  44%N ∉ piece → splitComma (piece ++ 44%N :: s) = piece :: splitComma s.
Proof.
  induction piece as [|c r IH]; [done |]. intros Hn.
  cbn [app splitComma]. rewrite (proj2 (N.eqb_neq c 44)).
  - rewrite IH; [done |]. intros ?. apply Hn. by right.
  - intros ->. apply Hn. by left.
Qed.

(** X14.  Splitting at the commas and joining with commas are inverse
    to each other: the pieces of a string joined again give the string,
    no piece holds a comma and there is always at least one piece; and
    an array of comma-free strings, joined and split, comes back. *)
Theorem splitComma_round_trip :
  (∀ s, joinComma (splitComma s) = s
        ∧ splitComma s ≠ []
        ∧ Forall (λ piece, 44%N ∉ piece) (splitComma s))
  ∧ (∀ pieces, pieces ≠ [] → Forall (λ piece, 44%N ∉ piece) pieces →
       splitComma (joinComma pieces) = pieces).
Proof.
  split.
  - intros s. split_and!;
      [apply joinComma_splitComma | apply splitComma_not_nil
      | apply splitComma_pieces].
  - intros pieces Hne Hfree. induction Hfree as [|p ps Hp Hps IH]; [done |].
    destruct ps as [|q qs].
    + by apply splitComma_comma_free.
    + rewrite joinComma_cons by done. rewrite splitComma_app_comma by done.
      by rewrite IH.
Qed.

Lemma splitComma_round_trip_witness :
  splitComma (joinComma [lit "https://a.example"; lit "http://localhost:8080"])
  = [lit "https://a.example"; lit "http://localhost:8080"].
Proof.
  apply (proj2 splitComma_round_trip); [discriminate |].
  repeat constructor; vm_compute; intros H;
    repeat (apply elem_of_cons in H as [H | H]; [discriminate H |]);
    by apply elem_of_nil in H.
Defined.

Lemma indexOfFrom_spec a x i :
  0 ≤ i →
  (x ∈ a → i ≤ indexOfFrom a x i) ∧ (x ∉ a → indexOfFrom a x i = -1).
Proof.
  revert i. induction a as [|y r IH]; intros i Hi; cbn [indexOfFrom].
  - split; [by intros ?%elem_of_nil | done].
  - unfold jsstring_eqb. case_bool_decide as Hy.
    + split; [lia |]. intros Hn. exfalso. apply Hn. subst. by left.
    + destruct (IH (i + 1)) as [Hin Hout]; [lia |]. split.
      * intros [?|Hr]%elem_of_cons; [congruence |]. specialize (Hin Hr). lia.
      * intros Hn. apply Hout. intros ?. apply Hn. by right.
Qed.

Lemma indexOf_absent_iff a x : indexOf a x = -1 ↔ x ∉ a.
Proof.
  unfold indexOf. destruct (indexOfFrom_spec a x 0) as [Hin Hout]; [done |].
  split; [| done]. intros Heq Hx. specialize (Hin Hx). lia.
Qed.

(** The decision of the CORS check, case by case. *)
Lemma corsOrigin_cases env origin :
  (corsOrigin (allowedOriginsOf env) origin = CorsAllow
   ↔ origin = None ∨ origin = Some []
     ∨ env = None ∨ env = Some []
     ∨ ∃ o s, origin = Some o ∧ env = Some s ∧ o ∈ splitComma s)
  ∧ (corsOrigin (allowedOriginsOf env) origin = CorsAllow
     ∨ corsOrigin (allowedOriginsOf env) origin
       = CorsDeny (lit "Not allowed by CORS")).
Proof.
  destruct origin as [[|c o]|]; [split; [split |]; auto.. | | split; [split |]; auto].
  destruct env as [[|e s]|]; [split; [split |]; auto 6.. | | split; [split |]; auto 6].
  cbn [allowedOriginsOf corsOrigin].
  destruct (Z.eqb_spec (indexOf (splitComma (e :: s)) (c :: o)) (-1)) as [Heq|Hne];
    cbn [negb].
  - split; [| by right]. split; [discriminate |].
    apply indexOf_absent_iff in Heq.
    intros [?|[?|[?|[?|(o' & s' & [= <-] & [= <-] & Hin)]]]]; done.
  - split; [| by left]. split; [| done]. intros _. do 4 right.
    exists (c :: o), (e :: s). split_and!; [done.. |].
    destruct (decide (c :: o ∈ splitComma (e :: s))) as [|Hn]; [done |].
    by apply indexOf_absent_iff in Hn.
Qed.

(** X15.  An origin passes the CORS check exactly when the request has
    no [Origin] header (or an empty one), or [ALLOWED_ORIGINS] is unset or
    empty, or the origin is, code unit for code unit, one of the
    comma-separated pieces of [ALLOWED_ORIGINS]; every other origin is
    refused with "Not allowed by CORS". *)
Theorem corsOrigin_allow_iff env origin :
  (corsOrigin (allowedOriginsOf env) origin = CorsAllow
   ↔ origin = None ∨ origin = Some []
     ∨ env = None ∨ env = Some []
     ∨ ∃ o s, origin = Some o ∧ env = Some s ∧ o ∈ splitComma s)
  ∧ (corsOrigin (allowedOriginsOf env) origin = CorsAllow
     ∨ corsOrigin (allowedOriginsOf env) origin
       = CorsDeny (lit "Not allowed by CORS")).
Proof. apply corsOrigin_cases. Qed.

(** X16.  With an [ALLOWED_ORIGINS] that holds no comma, an origin that
    is sent passes exactly when it equals the variable; so setting the
    variable to [*] admits the origin [*] alone, not every origin. *)
Theorem corsOrigin_single env o :
  env ≠ [] → 44%N ∉ env → o ≠ [] →
  corsOrigin (allowedOriginsOf (Some env)) (Some o) = CorsAllow ↔ o = env.
Proof.
  intros He Hfree Ho.
  destruct (corsOrigin_cases (Some env) (Some o)) as [Hiff _].
  rewrite Hiff. split.
  - intros [?|[[= ?]|[?|[[= ?]|(o' & s & [= <-] & [= <-] & Hin)]]]]; try done.
    rewrite splitComma_comma_free in Hin by done.
    by apply list_elem_of_singleton in Hin.
  - intros ->. do 4 right. exists env, env. split_and!; [done.. |].
    rewrite splitComma_comma_free by done. by left.
Qed.

Lemma corsOrigin_single_witness :
  corsOrigin (allowedOriginsOf (Some (lit "*"))) (Some (lit "https://a.example"))
    = CorsAllow
  ↔ lit "https://a.example" = lit "*".
Proof.
  apply (corsOrigin_single (lit "*") (lit "https://a.example")).
  - discriminate.
  - vm_compute. intros H.
    apply elem_of_cons in H as [H | H]; [discriminate H |].
    by apply elem_of_nil in H.
  - discriminate.
Defined.

Lemma length_le_concat (l : list jsstring) p :
  p ∈ l → (length p ≤ length (concat l))%nat.
Proof.
  induction 1 as [p l | p q l _ IH]; cbn [concat]; rewrite length_app; lia.
Qed.

(** Against a list of allowed origins some origin is refused. *)
Lemma OriginList_refuses origins :
  ∃ o, corsOrigin (OriginList origins) (Some o) ≠ CorsAllow.
Proof.
  exists (120%N :: concat origins). cbn [corsOrigin].
  assert (120%N :: concat origins ∉ origins) as Hn.
  { intros Hin%length_le_concat. cbn [length] in Hin. lia. }
  apply indexOf_absent_iff in Hn. by rewrite Hn.
Qed.

(** X17.  At start-up the CORS warning is written exactly when the
    configuration lets every origin through; otherwise the line on the
    configured origins shows [ALLOWED_ORIGINS] as it was set. *)
Theorem startupLog_cors envPort envOrigins :
  ((∃ text, ConsoleWarn text ∈ startupLog envPort envOrigins)
   ↔ ∀ origin, corsOrigin (allowedOriginsOf envOrigins) origin = CorsAllow)
  ∧ (∀ s, envOrigins = Some s → s ≠ [] →
       ConsoleLog (lit "CORS configured for origins: " ++ s)
         ∈ startupLog envPort envOrigins).
Proof.
  assert (∀ origin, corsOrigin AllOrigins origin = CorsAllow) as Hall
    by (by intros [[|c o]|]).
  unfold startupLog. split.
  - destruct (allowedOriginsOf envOrigins) as [|origins].
    + split; [done |]. intros _. eexists. do 2 right. left.
    + split.
      * intros (text & Hin). cbn in Hin.
        repeat (apply elem_of_cons in Hin as [Hin | Hin]; [discriminate Hin |]).
        by apply elem_of_nil in Hin.
      * intros Hok. destruct (OriginList_refuses origins) as [o Ho].
        by specialize (Hok (Some o)).
  - intros s -> Hs. destruct s as [|c s]; [done |].
    cbn [allowedOriginsOf]. rewrite joinComma_splitComma. right. left.
Qed.

Lemma startupLog_cors_witness :
  ConsoleLog (lit "CORS configured for origins: https://a.example,http://localhost:8080")
    ∈ startupLog None (Some (lit "https://a.example,http://localhost:8080")).
Proof.
  apply (proj2 (startupLog_cors None
                  (Some (lit "https://a.example,http://localhost:8080")))
           (lit "https://a.example,http://localhost:8080") eq_refl).
  discriminate.
Defined.


(** * Further properties of the earlier variant ([src/unnamed/part_000]) *)

Lemma part000_calls client (tracks : list Track.t) :
  concat (imap (Part000.detailTask client) (Some <$> tracks)).*2
  = (λ t, Part000.CallGetSongInfo (Track.url t)) <$> tracks.
Proof.
  rewrite imap_fmap, fmap_imap.
  rewrite (imap_ext _ (const (λ t, [Part000.CallGetSongInfo (Track.url t)])))
    by done.
  rewrite imap_const. induction tracks as [|t ts IH]; [done |].
  cbn. by rewrite IH.
Qed.

(** X18.  In the variant, when no search result is [null] and every
    lookup settles, the response is a 200 with one record per search
    result, in order, and [total_results] their number; and every search
    result is looked up, with or without a url. *)
Theorem part000_fan_out req client order q tracks :
  Part000.truthyQuery (req_q req) = Some q →
  Part000.search client q (lit "track") (Part000.limitOf (req_limit req))
    = SearchResolved (Some (Some <$> tracks)) →
  (∀ i, (i < length tracks)%nat → i ∈ order) →
  ∃ response,
    Part000.handleSearch req client order
      = (Part000.Responded 200 (Part000.SearchBody response),
         Part000.CallSearch q (lit "track") (Part000.limitOf (req_limit req))
           :: ((λ t, Part000.CallGetSongInfo (Track.url t)) <$> tracks))
    ∧ Part000.total_results response = length (Part000.results response)
    ∧ length (Part000.results response) = length tracks
    ∧ ∀ i, Part000.results response !! i
           = Part000.detailRecord client i <$> tracks !! i.
Proof.
  intros Hq Hs Hall.
  destruct (part000_one_record_per_candidate _ _ _ _ _ Hq Hs Hall)
    as (response & calls & Hh & Hrest).
  exists response. split; [| done]. rewrite Hh. f_equal.
  apply (f_equal snd) in Hh. cbn [snd] in Hh. rewrite <- Hh.
  unfold Part000.handleSearch. rewrite Hq, Hs.
  destruct (Part000.Promise_all _ order); cbn [snd]; by rewrite part000_calls.
Qed.

Lemma part000_fan_out_witness :
  let noUrl := Track.mk (str "Rain") JUndefined JUndefined JUndefined None in
  let client :=
    {| Part000.search := λ _ _ _,
         SearchResolved (Some (Some <$> [Sample.track "one"; noUrl]));
       Part000.getSongInfo := λ i _,
         match i with
         | 0%nat => DetailResolved (Sample.song "one" 185500)
         | _ => DetailRejected Sample.boom
         end |} in
  ∃ response,
    Part000.handleSearch Sample.request client [1; 0]%nat
      = (Part000.Responded 200 (Part000.SearchBody response),
         [Part000.CallSearch (QStr (lit "lofi")) (lit "track") 3;
          Part000.CallGetSongInfo (Track.url (Sample.track "one"));
          Part000.CallGetSongInfo JUndefined])
    ∧ Part000.total_results response = length (Part000.results response)
    ∧ length (Part000.results response) = 2%nat
    ∧ ∀ i, Part000.results response !! i
           = Part000.detailRecord client i <$> [Sample.track "one"; noUrl] !! i.
Proof.
  intros noUrl client.
  apply (part000_fan_out Sample.request client [1; 0]%nat
           (QStr (lit "lofi")) [Sample.track "one"; noUrl]).
  - reflexivity.
  - reflexivity.
  - intros i Hi. cbn in Hi.
    destruct i as [|[|i]]; [repeat constructor.. | lia].
Defined.

Lemma part000_joinFrom_rejects {A} (promises : list (option A)) order slots i :
  promises !! i = Some None → i ∈ order →
  Part000.joinFrom promises order slots = Part000.Rejection.
Proof.
  intros Hi Hin. revert slots.
  induction order as [|j order IH]; intros slots; [by apply elem_of_nil in Hin |].
  cbn [Part000.joinFrom].
  destruct (decide (j = i)) as [->|Hne]; [by rewrite Hi |].
  apply elem_of_cons in Hin as [?|Hin]; [congruence |].
  destruct (promises !! j) as [[v|]|]; auto.
Qed.

(** X19.  In the variant a [null] search result is fatal: reading its
    [url] throws in the [try] and again in the [catch], the join rejects
    as soon as that promise settles, and the whole request is answered
    500, whatever the other results are. *)
Theorem part000_null_item_fails_request req client order q candidates i :
  Part000.truthyQuery (req_q req) = Some q →
  Part000.search client q (lit "track") (Part000.limitOf (req_limit req))
    = SearchResolved (Some candidates) →
  candidates !! i = Some None →
  i ∈ order →
  (Part000.handleSearch req client order).1 = Part000.internalServerError.
Proof.
  intros Hq Hs Hi Hin. unfold Part000.handleSearch. rewrite Hq, Hs.
  unfold Part000.Promise_all.
  rewrite (part000_joinFrom_rejects _ _ _ i); [done | | done].
  by rewrite list_lookup_fmap, list_lookup_imap, Hi.
Qed.

Lemma part000_null_item_fails_request_witness :
  (Part000.handleSearch Sample.request
     {| Part000.search := λ _ _ _,
          SearchResolved (Some [Some (Sample.track "one"); None]);
        Part000.getSongInfo := getSongInfo Sample.client |} [0; 1]%nat).1
  = Part000.internalServerError.
Proof.
  apply (part000_null_item_fails_request Sample.request _ [0; 1]%nat
           (QStr (lit "lofi")) [Some (Sample.track "one"); None] 1).
  - reflexivity.
  - reflexivity.
  - reflexivity.
  - repeat constructor.
Defined.






(** X22.  The variant's [parseInt] without a radix reads what
    [parseInt(s, 10)] reads, unless the string, after whitespace and
    sign, starts with [0x] or [0X]. *)
Theorem part000_parseInt_radix s :
  (∀ x r, (splitSign (trimStart s)).2 = 48%N :: x :: r →
          x ≠ 120%N ∧ x ≠ 88%N) →
  Part000.parseInt s = parseInt10 s.
Proof.
  intros Hx. unfold Part000.parseInt, parseInt10.
  destruct (splitSign (trimStart s)) as [sign body]. cbn [snd] in Hx.
  destruct body as [|z rest]; [done |].
  destruct (N.eqb_spec z 48) as [->|Hz].
  - destruct rest as [|x r]; [done |].
    destruct (Hx x r eq_refl) as [H1 H2].
    by rewrite !(proj2 (N.eqb_neq x _)).
  - destruct z as [|p]; [done |].
    do 6 (destruct p as [p|p|]; try done).
Qed.

Lemma part000_parseInt_radix_witness :
  Part000.parseInt (lit " +012") = parseInt10 (lit " +012").
Proof.
  apply part000_parseInt_radix. intros x r H. vm_compute in H.
  injection H as <- _. split; discriminate.
Defined.
